(** * The uncaught-exception handler of the node integration

    A shallow embedding of [makeErrorHandler]
    (packages/integrations/src/transaction.ts, second document of the
    file: the [OnUncaughtException] integration) and of the part of the
    node event loop it relies on ([setTimeout]).

    The handler is a closure over four mutable variables.  It is embedded
    as a computation in a small state-and-output monad: the state is the
    record of the closure's variables, the output is the list of calls the
    handler makes to its collaborators ([captureException], the fatal
    error callback, [logger.warn], [setTimeout]), in program order.

    Collaborators are opaque: a call is recorded and returns.  (An
    exception thrown synchronously inside an [uncaughtException] listener
    is not delivered to the listener again; node ends the process, and
    with it the life of the handler.)

    Also embedded: the options and [setup] of the integration around the
    handler, the [Transaction] integration of the same file, and from the
    build scripts the pure parts of [prepack] (entry points, export map,
    source maps) and the counts of the mutation test report. *)

From Stdlib Require Import Bool List ZArith Ascii String Lia.
Import ListNotations.

Local Open Scope string_scope.
Local Open Scope Z_scope.
Local Open Scope list_scope.

(** ** Values *)

(** A JavaScript [Error] object. *)
Inductive Error : Type :=
| JsError (message : string).

(** A monitoring client, compared by object identity ([===]). *)
Definition NodeClient : Type := nat.

(** [type OnFatalErrorHandler = (firstError, secondError?) => void].
    The function values that can be bound to the local [onFatalError]:
    the imported default, or a function supplied by the caller. *)
Inductive OnFatalErrorHandler : Type :=
| logAndExitProcess
| userCallback (id : string).

(** [type TaggedListener = NodeJS.UncaughtExceptionListener & { tag?: string }],
    together with the [_errorHandler] property that [Object.assign] puts on
    the handlers built here.  [name] is the function's name. *)
Record TaggedListener : Type := {
  name : string;
  tag : option string;
  _errorHandler : bool
}.

(** [interface OnUncaughtExceptionOptions]. *)
Record OnUncaughtExceptionOptions : Type := {
  exitEvenIfOtherHandlersAreRegistered : bool;
  onFatalError : option OnFatalErrorHandler
}.

(** The part of [client.getOptions()] the handler reads. *)
Record NodeClientOptions : Type := {
  clientOnFatalError : option OnFatalErrorHandler
}.

(** What an invocation of the handler reads from outside its closure.
    [options] and [clientOptions] are objects held by reference: their
    properties are read at every invocation, so their contents are part of
    the environment of the invocation, as are
    [global.process.listeners('uncaughtException')] and [getClient()]. *)
Record World : Type := {
  options : OnUncaughtExceptionOptions;
  clientOptions : NodeClientOptions;
  listeners : list TaggedListener;
  getClient : option NodeClient
}.

(** The second argument of [captureException]. *)
Record EventHint : Type := {
  originalException : Error;
  captureContextLevel : string;
  mechanismHandled : bool;
  mechanismType : string
}.

(** The arrow function passed to [setTimeout]: it captures the local
    [onFatalError] and the parameter [error] of the invocation that
    created it. *)
Record TimerCallback : Type := {
  cbOnFatalError : OnFatalErrorHandler;
  cbError : Error
}.

(** Calls made to collaborators.  [Invoke f a b] is the call [f(a, b)] of
    a fatal error callback; an argument that is not passed is [None]
    ([undefined]). *)
Inductive Effect : Type :=
| CaptureException (exception : Error) (hint : EventHint)
| Invoke (f : OnFatalErrorHandler) (first second : option Error)
| LoggerWarn (msg : string)
| SetTimeout (callback : TimerCallback) (ms : Z).

(** ** The closure of [makeErrorHandler] *)

(** [let caughtFirstError, caughtSecondError, calledFatalError, firstError]. *)
Record Closure : Type := {
  caughtFirstError : bool;
  caughtSecondError : bool;
  calledFatalError : bool;
  firstError : option Error
}.

(** The variables as [makeErrorHandler] initialises them; [firstError] is
    declared without a value. *)
Definition initialClosure : Closure :=
  {| caughtFirstError := false;
     caughtSecondError := false;
     calledFatalError := false;
     firstError := None |}.

Definition setCaughtFirstError (b : bool) (c : Closure) : Closure :=
  {| caughtFirstError := b;
     caughtSecondError := caughtSecondError c;
     calledFatalError := calledFatalError c;
     firstError := firstError c |}.

Definition setCaughtSecondError (b : bool) (c : Closure) : Closure :=
  {| caughtFirstError := caughtFirstError c;
     caughtSecondError := b;
     calledFatalError := calledFatalError c;
     firstError := firstError c |}.

Definition setCalledFatalError (b : bool) (c : Closure) : Closure :=
  {| caughtFirstError := caughtFirstError c;
     caughtSecondError := caughtSecondError c;
     calledFatalError := b;
     firstError := firstError c |}.

Definition setFirstError (e : option Error) (c : Closure) : Closure :=
  {| caughtFirstError := caughtFirstError c;
     caughtSecondError := caughtSecondError c;
     calledFatalError := calledFatalError c;
     firstError := e |}.

(** ** A monad for the handler's body *)

Definition M (A : Type) : Type := Closure -> A * Closure * list Effect.

Definition ret {A : Type} (a : A) : M A := fun c => (a, c, []).

Definition bind {A B : Type} (m : M A) (k : A -> M B) : M B :=
  fun c =>
    let r1 := m c in
    let r2 := k (fst (fst r1)) (snd (fst r1)) in
    (fst (fst r2), snd (fst r2), snd r1 ++ snd r2).

Definition read {A : Type} (field : Closure -> A) : M A :=
  fun c => (field c, c, []).

Definition assign (update : Closure -> Closure) : M unit :=
  fun c => (tt, update c, []).

Definition call (eff : Effect) : M unit := fun c => (tt, c, [eff]).

Definition when (b : bool) (m : M unit) : M unit :=
  if b then m else ret tt.

Notation "x <- m ;; k" := (bind m (fun x => k))
  (at level 61, m at next level, right associativity).
Notation "m ;; k" := (bind m (fun _ => k))
  (at level 61, right associativity).

Definition closureOf {A : Type} (r : A * Closure * list Effect) : Closure :=
  snd (fst r).

Definition effectsOf {A : Type} (r : A * Closure * list Effect) : list Effect :=
  snd r.

(** ** The handler *)

Definition timeout : Z := 2000.

Definition tracingTag : string := "sentry_tracingErrorCallback".

Definition domainListenerName : string := "domainUncaughtExceptionClear".

Definition shutdownWarning : string :=
  "uncaught exception after calling fatal error shutdown callback - this is bad! forcing shutdown".

(** The condition of the [if] inside the [reduce] callback: the listeners
    that are not counted. *)
Definition ignoredListener (listener : TaggedListener) : bool :=
  String.eqb (name listener) domainListenerName
  || match tag listener with
     | Some t => negb (String.eqb t EmptyString) && String.eqb t tracingTag
     | None => false
     end
  || _errorHandler listener.

(** [listeners.reduce((acc, listener) => ..., 0)]. *)
Definition userProvidedListenersCount (ls : list TaggedListener) : nat :=
  fold_left
    (fun acc listener => if ignoredListener listener then acc else (acc + 1)%nat)
    ls 0%nat.

Definition processWouldExit (w : World) : bool :=
  Nat.eqb (userProvidedListenersCount (listeners w)) 0.

Definition shouldApplyFatalHandlingLogic (w : World) : bool :=
  exitEvenIfOtherHandlersAreRegistered (options w) || processWouldExit w.

(** The value of the local [onFatalError] after the first [if]/[else if]. *)
Definition resolveOnFatalError (w : World) : OnFatalErrorHandler :=
  match onFatalError (options w) with
  | Some f => f
  | None =>
      match clientOnFatalError (clientOptions w) with
      | Some f => f
      | None => logAndExitProcess
      end
  end.

Definition fatalHint (error : Error) : EventHint :=
  {| originalException := error;
     captureContextLevel := "fatal";
     mechanismHandled := false;
     mechanismType := "onuncaughtexception" |}.

(** The body of the arrow function given to [setTimeout]. *)
Definition timeoutCallback (cb : TimerCallback) : M unit :=
  called <- read calledFatalError ;;
  if negb called then
    assign (setCalledFatalError true) ;;
    first <- read firstError ;;
    call (Invoke (cbOnFatalError cb) first (Some (cbError cb)))
  else
    ret tt.

Section Handler.

(** The client the handler is bound to. *)
Variable client : NodeClient.

(** The build flag imported from [../debug-build], which is not part of
    the sources at hand. *)
Variable DEBUG_BUILD : bool.

(** [getClient() === client]. *)
Definition clientIsCurrent (w : World) : bool :=
  match getClient w with
  | Some c => Nat.eqb c client
  | None => false
  end.

(** The function returned by [makeErrorHandler(client, options)]. *)
Definition makeErrorHandler (w : World) (error : Error) : M unit :=
  let onFatalError := resolveOnFatalError w in
  let shouldApply := shouldApplyFatalHandlingLogic w in
  caughtFirst <- read caughtFirstError ;;
  if negb caughtFirst then
    assign (setFirstError (Some error)) ;;
    assign (setCaughtFirstError true) ;;
    when (clientIsCurrent w)
      (call (CaptureException error (fatalHint error))) ;;
    called <- read calledFatalError ;;
    when (negb called && shouldApply)
      (assign (setCalledFatalError true) ;;
       call (Invoke onFatalError (Some error) None))
  else
    when shouldApply
      (called <- read calledFatalError ;;
       if called then
         when DEBUG_BUILD (call (LoggerWarn shutdownWarning)) ;;
         call (Invoke logAndExitProcess (Some error) None)
       else
         caughtSecond <- read caughtSecondError ;;
         when (negb caughtSecond)
           (assign (setCaughtSecondError true) ;;
            call (SetTimeout
                    {| cbOnFatalError := onFatalError; cbError := error |}
                    timeout))).

End Handler.

(** ** The event loop around the handler *)

(** A timer armed by [setTimeout], with the clock value at which it is due. *)
Record Timer : Type := {
  due : Z;
  callback : TimerCallback
}.

(** The process as far as the handler is concerned: the closure, the timers
    that are armed, and the clock in milliseconds. *)
Record Process : Type := {
  closure : Closure;
  timers : list Timer;
  now : Z
}.

Definition initialProcess : Process :=
  {| closure := initialClosure; timers := []; now := 0 |}.

(** What happens to the process: an uncaught exception is delivered to the
    handler, in some environment, or time passes. *)
Inductive Event : Type :=
| UncaughtException (w : World) (error : Error)
| Elapse (ms : Z).

(** The timers that the calls of [setTimeout] among [effects] arm. *)
Definition arm (clock : Z) (effects : list Effect) : list Timer :=
  flat_map
    (fun eff =>
       match eff with
       | SetTimeout cb ms => [{| due := clock + ms; callback := cb |}]
       | _ => []
       end)
    effects.

Definition isDue (clock : Z) (t : Timer) : bool := due t <=? clock.

(** Runs the callbacks of the given timers, one after the other. *)
Fixpoint fire (ts : list Timer) (c : Closure) : Closure * list Effect :=
  match ts with
  | [] => (c, [])
  | t :: rest =>
      let r := timeoutCallback (callback t) c in
      let r' := fire rest (closureOf r) in
      (fst r', effectsOf r ++ snd r')
  end.

Section EventLoop.

Variable client : NodeClient.
Variable DEBUG_BUILD : bool.

(** One event.  All timers are armed with the same delay, so the list of
    armed timers is in the order in which they fall due. *)
Definition step (p : Process) (ev : Event) : Process * list Effect :=
  match ev with
  | UncaughtException w error =>
      let r := makeErrorHandler client DEBUG_BUILD w error (closure p) in
      ({| closure := closureOf r;
          timers := timers p ++ arm (now p) (effectsOf r);
          now := now p |},
       effectsOf r)
  | Elapse ms =>
      let clock := now p + Z.max 0 ms in
      let r := fire (filter (isDue clock) (timers p)) (closure p) in
      ({| closure := fst r;
          timers :=
            filter (fun t => negb (isDue clock t)) (timers p)
            ++ arm clock (snd r);
          now := clock |},
       snd r)
  end.

(** A sequence of events: the final process and all calls made. *)
Fixpoint run (p : Process) (evs : list Event) : Process * list Effect :=
  match evs with
  | [] => (p, [])
  | ev :: rest =>
      let r := step p ev in
      let r' := run (fst r) rest in
      (fst r', snd r ++ snd r')
  end.

(** The process after each event of the sequence. *)
Fixpoint history (p : Process) (evs : list Event) : list Process :=
  match evs with
  | [] => []
  | ev :: rest => fst (step p ev) :: history (fst (step p ev)) rest
  end.

Definition reachable (p : Process) : Prop :=
  exists evs, fst (run initialProcess evs) = p.

End EventLoop.

(** ** Observations on traces *)

Definition isInvoke (eff : Effect) : bool :=
  match eff with
  | Invoke _ _ _ => true
  | _ => false
  end.

(** A call of a fatal error callback with two errors. *)
Definition isPairInvoke (eff : Effect) : bool :=
  match eff with
  | Invoke _ _ (Some _) => true
  | _ => false
  end.

Definition isCapture (eff : Effect) : bool :=
  match eff with
  | CaptureException _ _ => true
  | _ => false
  end.

(** The number of positions at which a sequence of flag values changes. *)
Fixpoint flips (bs : list bool) : nat :=
  match bs with
  | b1 :: ((b2 :: _) as rest) =>
      ((if Bool.eqb b1 b2 then 0 else 1) + flips rest)%nat
  | _ => 0%nat
  end.

Definition called (p : Process) : bool := calledFatalError (closure p).

(** ** Runs, budgets and invariants *)

Definition pairInvocations (effects : list Effect) : nat :=
  List.length (filter isPairInvoke effects).

(** What is left of the one grace timer the handler can arm: the timers
    armed, plus one while [caughtSecondError] is still unset. *)
Definition graceBudget (p : Process) : nat :=
  (List.length (timers p)
   + if caughtSecondError (closure p) then 0 else 1)%nat.

(** What reachable processes have in common. *)
Definition consistent (p : Process) : Prop :=
  (caughtFirstError (closure p) = false -> closure p = initialClosure)
  /\ (caughtFirstError (closure p) = true -> firstError (closure p) <> None)
  /\ (caughtSecondError (closure p) = false -> timers p = []).

(** The grace timer [t] is armed and not yet due; [e1] is the first error. *)
Definition pending (t : Timer) (e1 : Error) (p : Process) : Prop :=
  caughtFirstError (closure p) = true
  /\ caughtSecondError (closure p) = true
  /\ firstError (closure p) = Some e1
  /\ timers p = [t]
  /\ now p < due t.

(** The arrow function created by the invocation for [error] in [w], and
    the timer [setTimeout] arms for it at the clock of [p]. *)
Definition graceCallback (w : World) (error : Error) : TimerCallback :=
  {| cbOnFatalError := resolveOnFatalError w; cbError := error |}.

Definition graceTimer (p : Process) (w : World) (error : Error) : Timer :=
  {| due := now p + timeout; callback := graceCallback w error |}.

(** An event at which the handler defers to the listeners of the user. *)
Definition deferring (ev : Event) : Prop :=
  match ev with
  | UncaughtException w _ =>
      exitEvenIfOtherHandlersAreRegistered (options w) = false
      /\ (0 < userProvidedListenersCount (listeners w))%nat
  | Elapse _ => True
  end.

Definition withListeners (w : World) (ls : list TaggedListener) : World :=
  {| options := options w;
     clientOptions := clientOptions w;
     listeners := ls;
     getClient := getClient w |}.

(** ** Sample data *)

Definition E1 : Error := JsError "first".
Definition E2 : Error := JsError "second".
Definition E3 : Error := JsError "third".

Definition defaultOptions : OnUncaughtExceptionOptions :=
  {| exitEvenIfOtherHandlersAreRegistered := true; onFatalError := None |}.

Definition noClientOptions : NodeClientOptions :=
  {| clientOnFatalError := None |}.

Definition ownListener : TaggedListener :=
  {| name := "bound "; tag := None; _errorHandler := true |}.

Definition tracingListener : TaggedListener :=
  {| name := "errorCallback"; tag := Some tracingTag; _errorHandler := false |}.

Definition domainListener : TaggedListener :=
  {| name := domainListenerName; tag := None; _errorHandler := false |}.

Definition userListener : TaggedListener :=
  {| name := "onCrash"; tag := None; _errorHandler := false |}.

(** Default options, the handler itself as only listener, and client 1
    current. *)
Definition defaultWorld : World :=
  {| options := defaultOptions;
     clientOptions := noClientOptions;
     listeners := [ownListener];
     getClient := Some 1%nat |}.

(** As [defaultWorld], after another client has become the current one. *)
Definition staleWorld : World :=
  {| options := defaultOptions;
     clientOptions := noClientOptions;
     listeners := [ownListener];
     getClient := Some 2%nat |}.

(** The handler defers to a listener of the user. *)
Definition deferringWorld : World :=
  {| options :=
       {| exitEvenIfOtherHandlersAreRegistered := false; onFatalError := None |};
     clientOptions := noClientOptions;
     listeners := [ownListener; userListener];
     getClient := Some 1%nat |}.

(** [deferringWorld] after the user's listener has been removed. *)
Definition deferringAloneWorld : World :=
  {| options :=
       {| exitEvenIfOtherHandlersAreRegistered := false; onFatalError := None |};
     clientOptions := noClientOptions;
     listeners := [ownListener];
     getClient := Some 1%nat |}.

(** The integration was given its own [onFatalError]. *)
Definition overrideWorld : World :=
  {| options :=
       {| exitEvenIfOtherHandlersAreRegistered := true;
          onFatalError := Some (userCallback "shutdown") |};
     clientOptions := noClientOptions;
     listeners := [ownListener];
     getClient := Some 1%nat |}.

(** The process after a first error to which the handler deferred. *)
Definition afterDeferredFirst : Process :=
  fst (run 1%nat false initialProcess [UncaughtException deferringWorld E1]).

(** The process after a first error with the integration's own callback. *)
Definition afterOverrideFirst : Process :=
  fst (run 1%nat false initialProcess [UncaughtException overrideWorld E1]).

(** Only the handler and node's domain listener are registered, and the
    handler is told to defer to other listeners. *)
Definition domainOnlyWorld : World :=
  {| options :=
       {| exitEvenIfOtherHandlersAreRegistered := false; onFatalError := None |};
     clientOptions := noClientOptions;
     listeners := [ownListener; domainListener];
     getClient := Some 1%nat |}.

(** [onFatalError] is set in the options of the client only. *)
Definition clientOverrideWorld : World :=
  {| options := defaultOptions;
     clientOptions := {| clientOnFatalError := Some (userCallback "clientShutdown") |};
     listeners := [ownListener];
     getClient := Some 1%nat |}.

(** ** Further observations on traces and runs *)

Definition isSetTimeout (eff : Effect) : bool :=
  match eff with
  | SetTimeout _ _ => true
  | _ => false
  end.

(** A call of a callback supplied by the caller, as opposed to the
    imported [logAndExitProcess]. *)
Definition isUserInvoke (eff : Effect) : bool :=
  match eff with
  | Invoke (userCallback _) _ _ => true
  | _ => false
  end.

(** The first uncaught exception of a sequence of events, with the
    environment it is delivered in. *)
Fixpoint firstDelivery (evs : list Event) : option (World * Error) :=
  match evs with
  | [] => None
  | UncaughtException w error :: _ => Some (w, error)
  | Elapse _ :: rest => firstDelivery rest
  end.

(** The number of uncaught exceptions in a sequence of events. *)
Fixpoint deliveries (evs : list Event) : nat :=
  match evs with
  | [] => 0%nat
  | UncaughtException _ _ :: rest => S (deliveries rest)
  | Elapse _ :: rest => deliveries rest
  end.

(** An event at which [exitEvenIfOtherHandlersAreRegistered] is set. *)
Definition eager (ev : Event) : Prop :=
  match ev with
  | UncaughtException w _ =>
      exitEvenIfOtherHandlersAreRegistered (options w) = true
  | Elapse _ => True
  end.

(** Every armed timer is due in the future. *)
Definition timersAhead (p : Process) : Prop :=
  Forall (fun t => now p < due t) (timers p).

(** Once a second error has been caught, either the callback has been
    called or a timer is armed that is due within the grace period. *)
Definition graceCovered (p : Process) : Prop :=
  caughtSecondError (closure p) = true ->
  called p = true
  \/ exists t, In t (timers p) /\ due t <= now p + timeout.

(** The callback has been called, or will be by the deadline. *)
Definition committed (deadline : Z) (p : Process) : Prop :=
  called p = true
  \/ exists t, In t (timers p) /\ due t <= deadline.

(** ** The integration around the handler *)

(** A property of the object literal the caller passes: left out, or
    present with a value, which may be [undefined] ([None]). *)
Inductive Property (A : Type) : Type :=
| absent
| present (v : option A).

Arguments absent {A}.
Arguments present {A} v.

(** [Partial<OnUncaughtExceptionOptions>]. *)
Record PartialOptions : Type := {
  givenExit : Property bool;
  givenOnFatalError : Property OnFatalErrorHandler
}.

(** [options = {}]: the default of the parameter. *)
Definition noOptions : PartialOptions :=
  {| givenExit := absent; givenOnFatalError := absent |}.

(** [_options = { exitEvenIfOtherHandlersAreRegistered: true, ...options }],
    as the handler sees it: a property that is present overrides the
    default, also when its value is [undefined], which the handler's [||]
    and [if] treat as false and as unset. *)
Definition integrationOptions (given : option PartialOptions)
  : OnUncaughtExceptionOptions :=
  let options := match given with Some o => o | None => noOptions end in
  {| exitEvenIfOtherHandlersAreRegistered :=
       match givenExit options with
       | absent => true
       | present (Some b) => b
       | present None => false
       end;
     onFatalError :=
       match givenOnFatalError options with
       | absent => None
       | present v => v
       end |}.

(** The listener [makeErrorHandler] returns: an arrow function without a
    name, to which [Object.assign] adds [_errorHandler: true]. *)
Definition handlerListener : TaggedListener :=
  {| name := EmptyString; tag := None; _errorHandler := true |}.

(** [setup(client)]: [process.on('uncaughtException', ...)] appends the
    handler to the listeners. *)
Definition setup (ls : list TaggedListener) : list TaggedListener :=
  ls ++ [handlerListener].

(** ** The [Transaction] integration *)

Module Transaction.

(** The properties of a [StackFrame] the integration reads. *)
Record StackFrame : Type := {
  module : option string;
  function : option string;
  in_app : option bool
}.

Record Stacktrace : Type := {
  frames : option (list StackFrame)
}.

Record Exception : Type := {
  stacktrace : option Stacktrace
}.

Record ExceptionValues : Type := {
  values : option (list Exception)
}.

(** An [Event]: the two properties the integration touches, and the rest
    of the event. *)
Record SentryEvent : Type := {
  exception : option ExceptionValues;
  transaction : option string;
  otherProperties : list (string * string)
}.

(** A string in a boolean position: [undefined] and the empty string are
    falsy. *)
Definition truthy (s : option string) : bool :=
  match s with
  | None => false
  | Some EmptyString => false
  | Some _ => true
  end.

(** [s || fallback]. *)
Definition orElse (s : option string) (fallback : string) : string :=
  match s with
  | None => fallback
  | Some EmptyString => fallback
  | Some v => v
  end.

Definition _getTransaction (frame : StackFrame) : string :=
  if truthy (module frame) || truthy (function frame)
  then (orElse (module frame) "?" ++ "/" ++ orElse (function frame) "?")%string
  else "<unknown>"%string.

Definition _getFramesFromEvent (event : SentryEvent) : list StackFrame :=
  match exception event with
  | None => []
  | Some ex =>
      match values ex with
      | None => []
      | Some [] => []
      | Some (first :: _) =>
          match stacktrace first with
          | None => []
          | Some st =>
              match frames st with
              | None => []
              | Some fs => fs
              end
          end
      end
  end.

(** [frame.in_app === true]. *)
Definition inApp (frame : StackFrame) : bool :=
  match in_app frame with
  | Some true => true
  | _ => false
  end.

(** The [for] loop: [scan i fs] is the loop about to look at index
    [i - 1]; the result is the frame at which it breaks, if it does. *)
Fixpoint scan (i : nat) (fs : list StackFrame) : option StackFrame :=
  match i with
  | O => None
  | S j =>
      match nth_error fs j with
      | Some frame => if inApp frame then Some frame else scan j fs
      | None => scan j fs
      end
  end.

Definition setTransaction (event : SentryEvent) (t : string) : SentryEvent :=
  {| exception := exception event;
     transaction := Some t;
     otherProperties := otherProperties event |}.

Definition processEvent (event : SentryEvent) : SentryEvent :=
  let fs := _getFramesFromEvent event in
  match scan (List.length fs) fs with
  | Some frame => setTransaction event (_getTransaction frame)
  | None => event
  end.

(** Whether a character occurs in a string. *)
Fixpoint occurs (c : Ascii.ascii) (s : string) : bool :=
  match s with
  | EmptyString => false
  | String a rest => Ascii.eqb a c || occurs c rest
  end.

(** An event with the given frames in its first exception. *)
Definition eventWithFrames (fs : list StackFrame) : SentryEvent :=
  {| exception :=
       Some {| values :=
                 Some [{| stacktrace := Some {| frames := Some fs |} |}] |};
     transaction := None;
     otherProperties := [] |}.

Definition libraryFrame : StackFrame :=
  {| module := Some "express"%string;
     function := Some "handle"%string;
     in_app := Some false |}.

Definition appFrame : StackFrame :=
  {| module := Some "app.routes"%string;
     function := Some "getUser"%string;
     in_app := Some true |}.

Definition anonymousFrame : StackFrame :=
  {| module := None; function := Some EmptyString; in_app := Some true |}.

End Transaction.

(** ** The prepack script *)

Module Prepack.

(** What is left of [s] after the prefix [pattern], if it has that prefix. *)
Fixpoint stripPrefix (pattern s : string) : option string :=
  match pattern with
  | EmptyString => Some s
  | String a pattern' =>
      match s with
      | EmptyString => None
      | String b s' =>
          if Ascii.eqb a b then stripPrefix pattern' s' else None
      end
  end.

(** [s.replace(pattern, replacement)] with a string as pattern: the first
    occurrence is replaced.  (The replacements used here contain no [$].) *)
Fixpoint replace (pattern replacement s : string) {struct s} : string :=
  match stripPrefix pattern s with
  | Some rest => (replacement ++ rest)%string
  | None =>
      match s with
      | EmptyString => EmptyString
      | String c rest => String c (replace pattern replacement rest)
      end
  end.

(** [.replace(`${buildDir}/`, '')]. *)
Definition stripBuildDir (buildDir s : string) : string :=
  replace (buildDir ++ "/")%string EmptyString s.

(** An entry point of [package.json]: [filter] keeps the truthy ones,
    [forEach] rewrites them. *)
Definition rewriteEntryPoint (buildDir : string) (entry : option string)
  : option string :=
  match entry with
  | None => None
  | Some EmptyString => Some EmptyString
  | Some path => Some (stripBuildDir buildDir path)
  end.

(** A value in the [exports] map: a string, an object with its entries in
    key order, or a value without keys of its own ([null], a number, a
    boolean). *)
#[local] Unset Elimination Schemes.

Inductive ExportsField : Type :=
| ExportsString (s : string)
| ExportsObject (entries : list (string * ExportsField))
| ExportsOther.

#[local] Set Elimination Schemes.

(** What [rewriteConditionalExportEntryPoint] makes of the value it finds
    under a key: a string is rewritten, an object has the function applied
    to each of its keys, anything else is left alone. *)
Fixpoint rewriteField (buildDir : string) (value : ExportsField)
  : ExportsField :=
  match value with
  | ExportsString EmptyString => value
  | ExportsString s => ExportsString (stripBuildDir buildDir s)
  | ExportsObject entries =>
      ExportsObject
        (map (fun entry : string * ExportsField =>
              let (k, v) := entry in (k, rewriteField buildDir v))
           entries)
  | ExportsOther => value
  end.

(** [rewriteConditionalExportEntryPoint(buildDir, exportsObject, key)]: the
    object after the call. *)
Definition rewriteConditionalExportEntryPoint
  (buildDir : string) (exportsObject : list (string * ExportsField))
  (key : string) : list (string * ExportsField) :=
  map (fun entry : string * ExportsField =>
         let (k, v) := entry in
         if String.eqb k key then (k, rewriteField buildDir v) else (k, v))
    exportsObject.

(** [Object.keys(exports).forEach(key => rewrite...(buildDir, exports, key))]. *)
Definition rewriteExports
  (buildDir : string) (exportsObject : list (string * ExportsField))
  : list (string * ExportsField) :=
  fold_left (rewriteConditionalExportEntryPoint buildDir)
    (map fst exportsObject) exportsObject.

(** The strings of an [exports] value, in order. *)
Fixpoint strings (value : ExportsField) : list string :=
  match value with
  | ExportsString s => [s]
  | ExportsObject entries =>
      flat_map
        (fun entry : string * ExportsField => let (_, v) := entry in strings v)
        entries
  | ExportsOther => []
  end.

(** The keys of an [exports] value, at all depths, in order. *)
Fixpoint keys (value : ExportsField) : list string :=
  match value with
  | ExportsObject entries =>
      flat_map
        (fun entry : string * ExportsField =>
           let (k, v) := entry in k :: keys v)
        entries
  | _ => []
  end.

(** A parsed source map: [sources] if it is an array, the [_processed]
    mark, and the other properties. *)
Record SourceMap : Type := {
  sources : option (list string);
  _processed : bool;
  otherMapProperties : list (string * string)
}.

(** The body of the [forEach] callback of [rewriteSourceMapSourcesPath],
    on the parsed content of one map file: the content written back, or
    [None] when the callback returns before writing. *)
Definition rewriteSourceMap (m : SourceMap) : option SourceMap :=
  if _processed m then None
  else
    Some {| sources :=
              match sources m with
              | Some srcs => Some (map (replace "../../" "../") srcs)
              | None => None
              end;
            _processed := true;
            otherMapProperties := otherMapProperties m |}.

Definition sampleExports : list (string * ExportsField) :=
  [("."%string,
    ExportsObject
      [("import"%string, ExportsString "build/esm/index.js");
       ("require"%string, ExportsString "build/cjs/index.js");
       ("types"%string, ExportsString "build/types/index.d.ts")]);
   ("./package.json"%string, ExportsString "./package.json")].

End Prepack.

(** ** The mutation test report *)

Module Mutation.

(** The number of mutants with the given status. *)
Definition withStatus (status : string) (statuses : list string) : nat :=
  List.length (filter (String.eqb status) statuses).

(** The counts of [getMutationTestResultAggregation].  ([score] and
    [scoreCovered] are rounded floating-point quotients and are not part
    of this record.) *)
Record Aggregation : Type := {
  detected : nat;
  undetected : nat;
  killed : nat;
  survived : nat;
  noCoverage : nat;
  ignored : nat;
  error : nat;
  timeout : nat;
  total : nat
}.

(** The counts computed from the [status] of each mutant result. *)
Definition getMutationTestResultAggregation (statuses : list string)
  : Aggregation :=
  let total := List.length statuses in
  let noCoverage := withStatus "NoCoverage" statuses in
  let killed := withStatus "Killed" statuses in
  let survived := withStatus "Survived" statuses in
  let error :=
    List.length
      (filter (fun s => String.eqb s "RuntimeError" || String.eqb s "CompileError")
         statuses) in
  let ignored := withStatus "Ignored" statuses in
  let timeout := withStatus "Timeout" statuses in
  let detected := (killed + timeout)%nat in
  {| detected := detected;
     undetected := (survived + noCoverage)%nat;
     killed := killed;
     survived := survived;
     noCoverage := noCoverage;
     ignored := ignored;
     error := error;
     timeout := timeout;
     total := total |}.

(** The statuses the aggregation has a count for. *)
Definition counted (status : string) : bool :=
  String.eqb status "NoCoverage" || String.eqb status "Killed"
  || String.eqb status "Survived" || String.eqb status "RuntimeError"
  || String.eqb status "CompileError" || String.eqb status "Ignored"
  || String.eqb status "Timeout".

End Mutation.

(** ** Tactics *)

Ltac unfold_monad :=
  unfold makeErrorHandler, timeoutCallback, bind, read, assign, call, when,
    ret, closureOf, effectsOf in *.

(** Case analysis on everything an invocation of the handler branches on. *)
Ltac handler_cases client DEBUG_BUILD w c :=
  unfold_monad;
  destruct c as [cf cs cl fe];
  destruct cf, cs, cl,
    (shouldApplyFatalHandlingLogic w), (clientIsCurrent client w), DEBUG_BUILD;
  cbn in *.

(** Finds which call of a list of effects a hypothesis of membership is
    about. *)
Ltac invoke_origin H :=
  repeat match type of H with
         | _ \/ _ => destruct H as [H|H]
         end;
  match type of H with
  | False => contradiction
  | Invoke _ _ _ = Invoke _ _ _ => injection H as <- _ _; auto
  | _ => discriminate H
  end.

(** ** Counting listeners *)

Lemma count_fold (ls : list TaggedListener) (n : nat) :
  fold_left
    (fun acc listener => if ignoredListener listener then acc else (acc + 1)%nat)
    ls n
  = (n + List.length (filter (fun l => negb (ignoredListener l)) ls))%nat.
Proof.
  revert n; induction ls as [|l ls IH]; intros n; cbn.
  - lia.
  - rewrite IH. destruct (ignoredListener l); cbn; lia.
Qed.

Lemma count_filter (ls : list TaggedListener) :
  userProvidedListenersCount ls
  = List.length (filter (fun l => negb (ignoredListener l)) ls).
Proof. unfold userProvidedListenersCount. now rewrite count_fold. Qed.

Lemma count_ignored (l : TaggedListener) (before after : list TaggedListener) :
  ignoredListener l = true ->
  userProvidedListenersCount (before ++ l :: after)
  = userProvidedListenersCount (before ++ after).
Proof.
  intros H. rewrite !count_filter, !filter_app. cbn. now rewrite H.
Qed.

Lemma count_counted (l : TaggedListener) (before after : list TaggedListener) :
  ignoredListener l = false ->
  userProvidedListenersCount (before ++ l :: after)
  = S (userProvidedListenersCount (before ++ after)).
Proof.
  intros H. rewrite !count_filter, !filter_app. cbn. rewrite H. cbn.
  rewrite !List.length_app. cbn. lia.
Qed.

Lemma ignored_own (l : TaggedListener) :
  _errorHandler l = true -> ignoredListener l = true.
Proof. intros H. unfold ignoredListener. rewrite H. apply orb_true_r. Qed.

Lemma ignored_tracing (l : TaggedListener) :
  tag l = Some tracingTag -> ignoredListener l = true.
Proof.
  intros H. unfold ignoredListener. rewrite H. cbn. now rewrite orb_true_r.
Qed.

Lemma ignored_domain (l : TaggedListener) :
  name l = domainListenerName -> ignoredListener l = true.
Proof.
  intros H. unfold ignoredListener. rewrite H, String.eqb_refl. reflexivity.
Qed.

Lemma counted_unmarked (l : TaggedListener) :
  name l <> domainListenerName ->
  tag l <> Some tracingTag ->
  _errorHandler l = false ->
  ignoredListener l = false.
Proof.
  intros Hn Ht He. unfold ignoredListener. rewrite He.
  apply String.eqb_neq in Hn. rewrite Hn. cbn.
  destruct (tag l) as [t|]; [|reflexivity].
  destruct (String.eqb_spec t tracingTag) as [->|]; [congruence|].
  now rewrite andb_false_r.
Qed.

Lemma count_all_ignored (ls : list TaggedListener) :
  Forall (fun l => ignoredListener l = true) ls ->
  userProvidedListenersCount ls = 0%nat.
Proof.
  intros H. rewrite count_filter. induction H as [|l ls Hl _ IH]; cbn.
  - reflexivity.
  - now rewrite Hl.
Qed.

(** ** The handler, branch by branch *)

Section HandlerFacts.

Variable client : NodeClient.
Variable DEBUG_BUILD : bool.

(** The [if (!caughtFirstError)] branch. *)
Lemma handler_first (w : World) (error : Error) (c : Closure) :
  caughtFirstError c = false ->
  makeErrorHandler client DEBUG_BUILD w error c
  = (tt,
     {| caughtFirstError := true;
        caughtSecondError := caughtSecondError c;
        calledFatalError :=
          calledFatalError c || shouldApplyFatalHandlingLogic w;
        firstError := Some error |},
     (if clientIsCurrent client w
      then [CaptureException error (fatalHint error)] else [])
     ++ (if negb (calledFatalError c) && shouldApplyFatalHandlingLogic w
         then [Invoke (resolveOnFatalError w) (Some error) None] else [])).
Proof.
  intros H. handler_cases client DEBUG_BUILD w c;
    try discriminate; reflexivity.
Qed.

(** The [else] branch. *)
Lemma handler_later (w : World) (error : Error) (c : Closure) :
  caughtFirstError c = true ->
  makeErrorHandler client DEBUG_BUILD w error c
  = if shouldApplyFatalHandlingLogic w then
      if calledFatalError c then
        (tt, c,
         (if DEBUG_BUILD then [LoggerWarn shutdownWarning] else [])
         ++ [Invoke logAndExitProcess (Some error) None])
      else if caughtSecondError c then (tt, c, [])
      else
        (tt, setCaughtSecondError true c,
         [SetTimeout
            {| cbOnFatalError := resolveOnFatalError w; cbError := error |}
            timeout])
    else (tt, c, []).
Proof.
  intros H. handler_cases client DEBUG_BUILD w c;
    try discriminate; reflexivity.
Qed.

Lemma callback_spec (cb : TimerCallback) (c : Closure) :
  timeoutCallback cb c
  = if calledFatalError c then (tt, c, [])
    else (tt, setCalledFatalError true c,
          [Invoke (cbOnFatalError cb) (firstError c) (Some (cbError cb))]).
Proof. unfold_monad. destruct c as [cf cs [] fe]; reflexivity. Qed.

Lemma fire_called (ts : list Timer) (c : Closure) :
  calledFatalError c = true -> fire ts c = (c, []).
Proof.
  intros H. induction ts as [|t ts IH]; cbn [fire]; [reflexivity|].
  rewrite callback_spec, H. unfold closureOf, effectsOf. cbn [fst snd].
  now rewrite IH.
Qed.

(** However many timers fall due together, only the first callback finds
    the flag unset. *)
Lemma fire_spec (ts : list Timer) (c : Closure) :
  fire ts c
  = match ts with
    | [] => (c, [])
    | t :: _ =>
        if calledFatalError c then (c, [])
        else (setCalledFatalError true c,
              [Invoke (cbOnFatalError (callback t)) (firstError c)
                 (Some (cbError (callback t)))])
    end.
Proof.
  destruct ts as [|t ts]; [reflexivity|].
  destruct (calledFatalError c) eqn:H.
  - now apply fire_called.
  - cbn [fire]. rewrite callback_spec, H. unfold closureOf, effectsOf.
    cbn [fst snd]. now rewrite fire_called.
Qed.

Lemma handler_monotone (w : World) (error : Error) (c : Closure) :
  calledFatalError c = true ->
  calledFatalError (closureOf (makeErrorHandler client DEBUG_BUILD w error c)) = true.
Proof.
  intros H. destruct (caughtFirstError c) eqn:Hf.
  - rewrite handler_later by assumption. rewrite H.
    now destruct (shouldApplyFatalHandlingLogic w).
  - rewrite handler_first by assumption. cbn. now rewrite H.
Qed.

Lemma fire_monotone (ts : list Timer) (c : Closure) :
  calledFatalError c = true -> calledFatalError (fst (fire ts c)) = true.
Proof. intros H. now rewrite fire_called. Qed.

Lemma fire_arms_nothing (clock : Z) (ts : list Timer) (c : Closure) :
  arm clock (snd (fire ts c)) = [].
Proof.
  rewrite fire_spec. destruct ts; [reflexivity|].
  now destruct (calledFatalError c).
Qed.

Lemma step_monotone (p : Process) (ev : Event) :
  called p = true -> called (fst (step client DEBUG_BUILD p ev)) = true.
Proof.
  unfold called. intros H.
  destruct ev as [w error|ms]; cbn [step fst closure].
  - now apply handler_monotone.
  - now apply fire_monotone.
Qed.

Lemma history_monotone (evs : list Event) (p : Process) :
  called p = true ->
  Forall (fun q => called q = true) (history client DEBUG_BUILD p evs).
Proof.
  revert p. induction evs as [|ev evs IH]; intros p H; cbn.
  - constructor.
  - constructor; [|apply IH]; now apply step_monotone.
Qed.

(** Any call of a fatal error callback leaves the flag set. *)
Lemma step_invoke_called (p : Process) (ev : Event) :
  existsb isInvoke (snd (step client DEBUG_BUILD p ev)) = true ->
  called (fst (step client DEBUG_BUILD p ev)) = true.
Proof.
  unfold called. destruct ev as [w error|ms]; cbn [step fst snd closure].
  - destruct (caughtFirstError (closure p)) eqn:Hf.
    + rewrite handler_later by assumption.
      destruct (shouldApplyFatalHandlingLogic w),
        (calledFatalError (closure p)) eqn:Hc,
        (caughtSecondError (closure p)); cbn; try discriminate; auto.
    + rewrite handler_first by assumption.
      destruct (shouldApplyFatalHandlingLogic w),
        (calledFatalError (closure p)) eqn:Hc,
        (clientIsCurrent client w); cbn; try discriminate; auto.
  - rewrite fire_spec.
    destruct (filter _ (timers p)); cbn; [discriminate|].
    destruct (calledFatalError (closure p)) eqn:Hc; cbn;
      [discriminate|reflexivity].
Qed.

Lemma flips_constant (bs : list bool) :
  Forall (fun b => b = true) bs -> flips (true :: bs) = 0%nat.
Proof.
  induction 1 as [|b bs Hb _ IH]; [reflexivity|].
  subst b. cbn [flips Bool.eqb]. exact IH.
Qed.

Lemma flips_history (evs : list Event) (p : Process) :
  (flips (called p :: map called (history client DEBUG_BUILD p evs)) <= 1)%nat.
Proof.
  revert p. induction evs as [|ev evs IH]; intros p; cbn [history map].
  - cbn. lia.
  - set (q := fst (step client DEBUG_BUILD p ev)).
    specialize (IH q).
    destruct (called q) eqn:Hq.
    + assert (Hall : flips (true :: map called (history client DEBUG_BUILD q evs)) = 0%nat).
      { apply flips_constant. apply Forall_map.
        now apply history_monotone. }
      change (flips (called p :: true :: map called (history client DEBUG_BUILD q evs)))
        with ((if Bool.eqb (called p) true then 0 else 1)
              + flips (true :: map called (history client DEBUG_BUILD q evs)))%nat.
      rewrite Hall. destruct (called p); cbn; lia.
    + destruct (called p) eqn:Hp.
      * apply (step_monotone p ev) in Hp. fold q in Hp. congruence.
      * change (flips (false :: false :: map called (history client DEBUG_BUILD q evs)))
          with (0 + flips (false :: map called (history client DEBUG_BUILD q evs)))%nat.
        lia.
Qed.

End HandlerFacts.

(** ** Runs of the event loop *)

Lemma filter_split_length {A : Type} (f : A -> bool) (l : list A) :
  (List.length (filter f l) + List.length (filter (fun x => negb (f x)) l)
   = List.length l)%nat.
Proof.
  induction l as [|a l IH]; cbn; [reflexivity|].
  destruct (f a); cbn; lia.
Qed.

Lemma pairInvocations_app (l1 l2 : list Effect) :
  pairInvocations (l1 ++ l2) = (pairInvocations l1 + pairInvocations l2)%nat.
Proof. unfold pairInvocations. now rewrite filter_app, List.length_app. Qed.

Section RunFacts.

Variable client : NodeClient.
Variable DEBUG_BUILD : bool.

Lemma run_app (a b : list Event) (p : Process) :
  run client DEBUG_BUILD p (a ++ b)
  = (fst (run client DEBUG_BUILD (fst (run client DEBUG_BUILD p a)) b),
     snd (run client DEBUG_BUILD p a)
     ++ snd (run client DEBUG_BUILD (fst (run client DEBUG_BUILD p a)) b)).
Proof.
  revert p. induction a as [|ev a IH]; intros p; cbn [run app fst snd].
  - now destruct (run client DEBUG_BUILD p b).
  - rewrite IH. cbn [fst snd]. now rewrite app_assoc.
Qed.

Lemma step_uncaught_first (p : Process) (w : World) (error : Error) :
  caughtFirstError (closure p) = false ->
  step client DEBUG_BUILD p (UncaughtException w error)
  = ({| closure :=
          {| caughtFirstError := true;
             caughtSecondError := caughtSecondError (closure p);
             calledFatalError :=
               calledFatalError (closure p) || shouldApplyFatalHandlingLogic w;
             firstError := Some error |};
        timers := timers p;
        now := now p |},
     (if clientIsCurrent client w
      then [CaptureException error (fatalHint error)] else [])
     ++ (if negb (calledFatalError (closure p))
            && shouldApplyFatalHandlingLogic w
         then [Invoke (resolveOnFatalError w) (Some error) None] else [])).
Proof.
  intros H. cbn [step]. rewrite handler_first by assumption.
  unfold closureOf, effectsOf. cbn [fst snd]. f_equal. f_equal.
  destruct (clientIsCurrent client w),
    (negb (calledFatalError (closure p)) && shouldApplyFatalHandlingLogic w);
    cbn; now rewrite app_nil_r.
Qed.

Lemma step_uncaught_later (p : Process) (w : World) (error : Error) :
  caughtFirstError (closure p) = true ->
  step client DEBUG_BUILD p (UncaughtException w error)
  = if shouldApplyFatalHandlingLogic w then
      if calledFatalError (closure p) then
        (p,
         (if DEBUG_BUILD then [LoggerWarn shutdownWarning] else [])
         ++ [Invoke logAndExitProcess (Some error) None])
      else if caughtSecondError (closure p) then (p, [])
      else
        ({| closure := setCaughtSecondError true (closure p);
            timers :=
              timers p
              ++ [{| due := now p + timeout;
                     callback :=
                       {| cbOnFatalError := resolveOnFatalError w;
                          cbError := error |} |}];
            now := now p |},
         [SetTimeout
            {| cbOnFatalError := resolveOnFatalError w; cbError := error |}
            timeout])
    else (p, []).
Proof.
  intros H. cbn [step]. rewrite handler_later by assumption.
  destruct p as [c ts clock]. cbn [closure timers now] in *.
  destruct (shouldApplyFatalHandlingLogic w), (calledFatalError c),
    (caughtSecondError c), DEBUG_BUILD;
    unfold closureOf, effectsOf; cbn; now rewrite ?app_nil_r.
Qed.

Lemma step_elapse (p : Process) (ms : Z) :
  step client DEBUG_BUILD p (Elapse ms)
  = let clock := now p + Z.max 0 ms in
    let r := fire (filter (isDue clock) (timers p)) (closure p) in
    ({| closure := fst r;
        timers := filter (fun t => negb (isDue clock t)) (timers p);
        now := clock |},
     snd r).
Proof. cbn [step]. now rewrite fire_arms_nothing, app_nil_r. Qed.

Lemma step_now (p : Process) (ev : Event) :
  now p <= now (fst (step client DEBUG_BUILD p ev)).
Proof. destruct ev; cbn [step fst now]; lia. Qed.

Lemma run_now (evs : list Event) (p : Process) :
  now p <= now (fst (run client DEBUG_BUILD p evs)).
Proof.
  revert p. induction evs as [|ev evs IH]; intros p; cbn [run fst].
  - lia.
  - pose proof (step_now p ev).
    specialize (IH (fst (step client DEBUG_BUILD p ev))). lia.
Qed.

Lemma consistent_initial : consistent initialProcess.
Proof. repeat split; cbn; congruence. Qed.

Lemma consistent_step (p : Process) (ev : Event) :
  consistent p -> consistent (fst (step client DEBUG_BUILD p ev)).
Proof.
  intros (Hinit & Hfirst & Htimers). destruct ev as [w error|ms].
  - destruct (caughtFirstError (closure p)) eqn:Hf.
    + rewrite step_uncaught_later by assumption.
      destruct (shouldApplyFatalHandlingLogic w),
        (calledFatalError (closure p)),
        (caughtSecondError (closure p)) eqn:Hs; cbn [fst];
        try (now repeat split);
        repeat split; cbn; intros; try congruence; auto.
    + rewrite step_uncaught_first by assumption.
      rewrite (Hinit eq_refl) in *. cbn in Htimers.
      repeat split; cbn; intros; try congruence; auto.
  - rewrite step_elapse. cbn [fst closure timers]. rewrite fire_spec.
    destruct (caughtSecondError (closure p)) eqn:Hs.
    + destruct (caughtFirstError (closure p)) eqn:Hf;
        [|rewrite (Hinit eq_refl) in Hs; discriminate].
      destruct (filter _ (timers p)), (calledFatalError (closure p));
        repeat split; cbn; intros; try congruence; auto.
    + rewrite (Htimers eq_refl). cbn. now repeat split.
Qed.

Lemma consistent_run (evs : list Event) (p : Process) :
  consistent p -> consistent (fst (run client DEBUG_BUILD p evs)).
Proof.
  revert p. induction evs as [|ev evs IH]; intros p H; cbn [run fst].
  - assumption.
  - apply IH. now apply consistent_step.
Qed.

Lemma reachable_consistent (p : Process) :
  reachable client DEBUG_BUILD p -> consistent p.
Proof.
  intros [evs <-]. apply consistent_run, consistent_initial.
Qed.

Lemma reachable_step (p : Process) (ev : Event) :
  reachable client DEBUG_BUILD p ->
  reachable client DEBUG_BUILD (fst (step client DEBUG_BUILD p ev)).
Proof.
  intros [evs <-]. exists (evs ++ [ev]). rewrite run_app. cbn [fst run].
  reflexivity.
Qed.

(** A call with two errors uses up the grace timer. *)
Lemma step_budget (p : Process) (ev : Event) :
  (pairInvocations (snd (step client DEBUG_BUILD p ev))
   + graceBudget (fst (step client DEBUG_BUILD p ev))
   <= graceBudget p)%nat.
Proof.
  unfold graceBudget. destruct ev as [w error|ms].
  - destruct (caughtFirstError (closure p)) eqn:Hf.
    + rewrite step_uncaught_later by assumption.
      destruct (shouldApplyFatalHandlingLogic w),
        (calledFatalError (closure p)),
        (caughtSecondError (closure p)) eqn:Hs, DEBUG_BUILD;
        cbn; rewrite ?Hs, ?List.length_app; cbn; lia.
    + rewrite step_uncaught_first by assumption.
      destruct (clientIsCurrent client w),
        (negb (calledFatalError (closure p))
         && shouldApplyFatalHandlingLogic w);
        cbn; lia.
  - rewrite step_elapse. cbn [fst snd closure timers]. rewrite fire_spec.
    pose proof (filter_split_length
                  (isDue (now p + Z.max 0 ms)) (timers p)) as Hlen.
    destruct (filter (isDue (now p + Z.max 0 ms)) (timers p)) as [|t ts];
      [|destruct (calledFatalError (closure p))]; cbn in *; lia.
Qed.

Lemma run_budget (evs : list Event) (p : Process) :
  (pairInvocations (snd (run client DEBUG_BUILD p evs))
   + graceBudget (fst (run client DEBUG_BUILD p evs))
   <= graceBudget p)%nat.
Proof.
  revert p. induction evs as [|ev evs IH]; intros p; cbn [run fst snd].
  - cbn. lia.
  - rewrite pairInvocations_app.
    pose proof (step_budget p ev).
    specialize (IH (fst (step client DEBUG_BUILD p ev))). lia.
Qed.

End RunFacts.

(** ** The grace timer *)

Section GraceTimer.

Variable client : NodeClient.
Variable DEBUG_BUILD : bool.

Lemma pending_step (t : Timer) (e1 : Error) (p : Process) (ev : Event) :
  pending t e1 p ->
  now (fst (step client DEBUG_BUILD p ev)) < due t ->
  pending t e1 (fst (step client DEBUG_BUILD p ev))
  /\ pairInvocations (snd (step client DEBUG_BUILD p ev)) = 0%nat.
Proof.
  intros (Hf & Hs & He & Ht & Hnow). destruct ev as [w error|ms].
  - rewrite step_uncaught_later by assumption. rewrite Hs.
    intros _.
    destruct (shouldApplyFatalHandlingLogic w),
      (calledFatalError (closure p)), DEBUG_BUILD; cbn [fst snd];
      (split; [now repeat split | reflexivity]).
  - rewrite step_elapse. cbn [fst snd now]. intros Hlt.
    rewrite Ht. cbn [filter]. unfold isDue.
    destruct (Z.leb_spec (due t) (now p + Z.max 0 ms)); [lia|].
    cbn. split; [now repeat split | reflexivity].
Qed.

Lemma pending_run (t : Timer) (e1 : Error) (evs : list Event) (p : Process) :
  pending t e1 p ->
  now (fst (run client DEBUG_BUILD p evs)) < due t ->
  pending t e1 (fst (run client DEBUG_BUILD p evs))
  /\ pairInvocations (snd (run client DEBUG_BUILD p evs)) = 0%nat.
Proof.
  revert p. induction evs as [|ev evs IH]; intros p Hp; cbn [run fst snd].
  - intros _. now split.
  - intros Hlt.
    pose proof (run_now client DEBUG_BUILD evs
                  (fst (step client DEBUG_BUILD p ev))) as Hmono.
    destruct (pending_step t e1 p ev Hp) as [Hp' Hnone]; [lia|].
    destruct (IH _ Hp' Hlt) as [Hq Hnone'].
    split; [assumption|].
    rewrite pairInvocations_app. lia.
Qed.

Lemma pending_fire (t : Timer) (e1 : Error) (p : Process) (ms : Z) :
  pending t e1 p ->
  due t <= now p + ms ->
  step client DEBUG_BUILD p (Elapse ms)
  = ({| closure := setCalledFatalError true (closure p);
        timers := [];
        now := now p + ms |},
     if calledFatalError (closure p) then []
     else [Invoke (cbOnFatalError (callback t)) (Some e1)
             (Some (cbError (callback t)))]).
Proof.
  intros (Hf & Hs & He & Ht & Hnow) Hdue.
  rewrite step_elapse. cbn zeta.
  replace (Z.max 0 ms) with ms by lia.
  rewrite Ht. cbn [filter]. unfold isDue.
  destruct (Z.leb_spec (due t) (now p + ms)); [|lia].
  cbn [negb]. rewrite fire_spec, He.
  destruct p as [[cf cs [] fe] ts clock]; reflexivity.
Qed.

Lemma spent_run (evs : list Event) (p : Process) :
  caughtSecondError (closure p) = true ->
  timers p = [] ->
  pairInvocations (snd (run client DEBUG_BUILD p evs)) = 0%nat.
Proof.
  intros Hs Ht. pose proof (run_budget client DEBUG_BUILD evs p) as H.
  unfold graceBudget in H at 2. rewrite Hs, Ht in H. cbn in H. lia.
Qed.

End GraceTimer.

(** * Properties *)

Section Properties.

Variable client : NodeClient.
Variable DEBUG_BUILD : bool.

Lemma clientIsCurrent_iff (w : World) :
  clientIsCurrent client w = true <-> getClient w = Some client.
Proof.
  unfold clientIsCurrent. destruct (getClient w) as [c|].
  - rewrite Nat.eqb_eq. split; congruence.
  - split; discriminate.
Qed.

Lemma reachable_first (p : Process) :
  reachable client DEBUG_BUILD p ->
  caughtFirstError (closure p) = false ->
  closure p = initialClosure /\ timers p = [].
Proof.
  intros Hr Hf. destruct (reachable_consistent _ _ _ Hr) as (Hi & _ & Ht).
  split; [auto|]. apply Ht. now rewrite (Hi Hf).
Qed.

Lemma reachable_later (p : Process) :
  reachable client DEBUG_BUILD p ->
  caughtFirstError (closure p) = false ->
  caughtSecondError (closure p) = false
  /\ calledFatalError (closure p) = false
  /\ firstError (closure p) = None.
Proof.
  intros Hr Hf. destruct (reachable_first p Hr Hf) as [-> _]. now cbn.
Qed.

(** C1: over any sequence of events (errors delivered to the handler, time
    passing and the grace timer firing), [calledFatalError] changes value
    at most once; once it is true it is true after every later event; and
    any event at which a fatal error callback is called, on a guarded path
    or not, leaves it true for the rest of the sequence. *)
Theorem calledFatalError_set_once (p : Process) (ev : Event) (evs : list Event) :
  (flips (called p :: map called (history client DEBUG_BUILD p evs)) <= 1)%nat
  /\ (called p = true ->
      Forall (fun q => called q = true) (history client DEBUG_BUILD p evs))
  /\ (existsb isInvoke (snd (step client DEBUG_BUILD p ev)) = true ->
      Forall (fun q => called q = true)
        (history client DEBUG_BUILD p (ev :: evs))).
Proof.
  split; [apply flips_history|]. split; [apply history_monotone|].
  intros H. apply step_invoke_called in H. cbn [history].
  constructor; [assumption|]. now apply history_monotone.
Qed.

(** C2: a second error that arrives while the fatal logic applies and the
    callback has not been called arms one timer of 2000 ms.  Until the
    clock reaches its due time the timer stays armed and no callback is
    called with two errors.  When it fires, the callback resolved at the
    second error is called with (first error, second error) exactly when
    [calledFatalError] is still false, the flag is true afterwards, and
    no call with two errors is ever made again. *)
Theorem grace_timer_invokes_once
  (p : Process) (w : World) (e1 e2 : Error) (mid rest : list Event) (ms : Z) :
  reachable client DEBUG_BUILD p ->
  firstError (closure p) = Some e1 ->
  caughtSecondError (closure p) = false ->
  called p = false ->
  shouldApplyFatalHandlingLogic w = true ->
  step client DEBUG_BUILD p (UncaughtException w e2)
  = ({| closure := setCaughtSecondError true (closure p);
        timers := [graceTimer p w e2];
        now := now p |},
     [SetTimeout (graceCallback w e2) 2000])
  /\ (now (fst (run client DEBUG_BUILD p (UncaughtException w e2 :: mid)))
      < now p + 2000 ->
      timers (fst (run client DEBUG_BUILD p (UncaughtException w e2 :: mid)))
      = [graceTimer p w e2]
      /\ pairInvocations
           (snd (run client DEBUG_BUILD p (UncaughtException w e2 :: mid)))
         = 0%nat
      /\ (now p + 2000
          <= now (fst (run client DEBUG_BUILD p
                         (UncaughtException w e2 :: mid))) + ms ->
          snd (step client DEBUG_BUILD
                 (fst (run client DEBUG_BUILD p
                         (UncaughtException w e2 :: mid)))
                 (Elapse ms))
          = (if called (fst (run client DEBUG_BUILD p
                               (UncaughtException w e2 :: mid)))
             then []
             else [Invoke (resolveOnFatalError w) (Some e1) (Some e2)])
          /\ called (fst (run client DEBUG_BUILD p
                            (UncaughtException w e2 :: mid ++ [Elapse ms])))
             = true
          /\ pairInvocations
               (snd (run client DEBUG_BUILD
                       (fst (run client DEBUG_BUILD p
                               (UncaughtException w e2 :: mid ++ [Elapse ms])))
                       rest))
             = 0%nat)).
Proof.
  intros Hr He Hs Hc Hw. unfold called in Hc.
  destruct (reachable_consistent _ _ _ Hr) as (Hi & _ & Ht).
  assert (Hf : caughtFirstError (closure p) = true).
  { destruct (caughtFirstError (closure p)) eqn:Hf; [reflexivity|].
    rewrite (Hi eq_refl) in He. discriminate. }
  assert (Hstep :
    step client DEBUG_BUILD p (UncaughtException w e2)
    = ({| closure := setCaughtSecondError true (closure p);
          timers := [graceTimer p w e2];
          now := now p |},
       [SetTimeout (graceCallback w e2) 2000])).
  { rewrite step_uncaught_later by assumption.
    rewrite Hw, Hc, Hs, (Ht Hs). reflexivity. }
  split; [exact Hstep|].
  cbn [run]. rewrite Hstep. cbn [fst snd].
  set (p2 := {| closure := setCaughtSecondError true (closure p);
                timers := [graceTimer p w e2];
                now := now p |}).
  assert (Hp2 : pending (graceTimer p w e2) e1 p2).
  { unfold pending, p2, graceTimer, timeout. cbn. repeat split; auto. lia. }
  intros Hlt.
  destruct (pending_run client DEBUG_BUILD _ _ mid p2 Hp2) as [Hq Hnone];
    [cbn; unfold timeout; lia|].
  split; [apply Hq|]. split.
  { rewrite pairInvocations_app, Hnone. reflexivity. }
  intros Hdue.
  assert (Hfire := pending_fire client DEBUG_BUILD _ _ _ ms Hq).
  cbn [graceTimer due] in Hfire. unfold timeout in Hfire.
  specialize (Hfire Hdue).
  rewrite !run_app. cbn [run fst snd]. rewrite Hfire. cbn [fst snd].
  split; [reflexivity|]. split; [reflexivity|].
  apply spent_run; [|reflexivity]. cbn. apply Hq.
Qed.

(** C3 (amended): on the first error, with the default options and no
    listener of the user registered, one invocation stores the error as
    [firstError], calls [captureException] with it when the client the
    handler is bound to is the current one (and makes no such call
    otherwise), then sets [calledFatalError] and calls the resolved fatal
    error callback with that error alone. *)
Theorem first_error_default (p : Process) (w : World) (error : Error) :
  reachable client DEBUG_BUILD p ->
  caughtFirstError (closure p) = false ->
  options w = defaultOptions ->
  userProvidedListenersCount (listeners w) = 0%nat ->
  step client DEBUG_BUILD p (UncaughtException w error)
  = ({| closure :=
          {| caughtFirstError := true;
             caughtSecondError := false;
             calledFatalError := true;
             firstError := Some error |};
        timers := [];
        now := now p |},
     (if clientIsCurrent client w
      then [CaptureException error (fatalHint error)] else [])
     ++ [Invoke (resolveOnFatalError w) (Some error) None]).
Proof.
  intros Hr Hf Ho Hn. destruct (reachable_first p Hr Hf) as [Hc Ht].
  rewrite step_uncaught_first by assumption.
  unfold shouldApplyFatalHandlingLogic. rewrite Ho, Hc, Ht. reflexivity.
Qed.

(** C4 (amended): an error that arrives after [calledFatalError] has been
    set, while the fatal logic applies, makes the handler call
    [logAndExitProcess] with this error at once (after a warning in debug
    builds), whatever [onFatalError] resolves to; nothing is stored and no
    timer is armed. *)
Theorem error_after_shutdown (p : Process) (w : World) (error : Error) :
  reachable client DEBUG_BUILD p ->
  called p = true ->
  shouldApplyFatalHandlingLogic w = true ->
  step client DEBUG_BUILD p (UncaughtException w error)
  = (p,
     (if DEBUG_BUILD then [LoggerWarn shutdownWarning] else [])
     ++ [Invoke logAndExitProcess (Some error) None]).
Proof.
  unfold called. intros Hr Hc Hw.
  destruct (caughtFirstError (closure p)) eqn:Hf.
  - rewrite step_uncaught_later by assumption. now rewrite Hw, Hc.
  - destruct (reachable_later p Hr Hf) as (_ & Hc' & _). congruence.
Qed.

Lemma deferring_quiet (w : World) (error : Error) :
  deferring (UncaughtException w error) ->
  shouldApplyFatalHandlingLogic w = false.
Proof.
  intros [He Hn]. unfold shouldApplyFatalHandlingLogic, processWouldExit.
  rewrite He. cbn. apply Nat.eqb_neq. lia.
Qed.

Lemma deferring_run (evs : list Event) (p : Process) :
  timers p = [] ->
  Forall deferring evs ->
  filter isInvoke (snd (run client DEBUG_BUILD p evs)) = []
  /\ called (fst (run client DEBUG_BUILD p evs)) = called p.
Proof.
  revert p. induction evs as [|ev evs IH]; intros p Ht Hall; cbn [run fst snd].
  - now split.
  - apply Forall_cons_iff in Hall. destruct Hall as [Hev Hall].
    assert (Hstep :
      timers (fst (step client DEBUG_BUILD p ev)) = []
      /\ filter isInvoke (snd (step client DEBUG_BUILD p ev)) = []
      /\ called (fst (step client DEBUG_BUILD p ev)) = called p).
    { unfold called. destruct ev as [w error|ms].
      - apply deferring_quiet in Hev.
        destruct (caughtFirstError (closure p)) eqn:Hf.
        + rewrite step_uncaught_later by assumption. rewrite Hev. now cbn.
        + rewrite step_uncaught_first by assumption.
          rewrite Hev, andb_false_r, orb_false_r.
          destruct (clientIsCurrent client w); now cbn.
      - rewrite step_elapse, Ht. now cbn. }
    destruct Hstep as (Ht' & Hnone & Hc).
    destruct (IH _ Ht' Hall) as [Hnone' Hc'].
    rewrite filter_app, Hnone, Hnone'. split; [reflexivity|congruence].
Qed.

(** C5: if at every invocation [exitEvenIfOtherHandlersAreRegistered] is
    false and at least one listener of the user is registered, then over
    any sequence of errors and any passing of time no fatal error
    callback is ever called, and [calledFatalError] stays false. *)
Theorem deferring_never_terminates (evs : list Event) :
  Forall deferring evs ->
  filter isInvoke (snd (run client DEBUG_BUILD initialProcess evs)) = []
  /\ called (fst (run client DEBUG_BUILD initialProcess evs)) = false.
Proof.
  intros H. now apply (deferring_run evs initialProcess).
Qed.

(** C6: at every invocation [shouldApplyFatalHandlingLogic] is
    [exitEvenIfOtherHandlersAreRegistered] or (count of listeners = 0);
    a listener carrying [_errorHandler] or the tag
    ['sentry_tracingErrorCallback'] does not change the count, a listener
    without any of the marks the code looks for adds one to it; and the
    environment enters the handler's decision only through this value,
    the resolved callback and the client comparison. *)
Theorem shouldApplyFatalHandlingLogic_spec (w : World) :
  shouldApplyFatalHandlingLogic w
  = (exitEvenIfOtherHandlersAreRegistered (options w)
     || Nat.eqb (userProvidedListenersCount (listeners w)) 0)
  /\ (forall l before after,
        _errorHandler l = true \/ tag l = Some tracingTag ->
        userProvidedListenersCount (before ++ l :: after)
        = userProvidedListenersCount (before ++ after))
  /\ (forall l before after,
        name l <> domainListenerName ->
        tag l <> Some tracingTag ->
        _errorHandler l = false ->
        userProvidedListenersCount (before ++ l :: after)
        = S (userProvidedListenersCount (before ++ after)))
  /\ (forall w' error c,
        shouldApplyFatalHandlingLogic w' = shouldApplyFatalHandlingLogic w ->
        resolveOnFatalError w' = resolveOnFatalError w ->
        clientIsCurrent client w' = clientIsCurrent client w ->
        makeErrorHandler client DEBUG_BUILD w' error c
        = makeErrorHandler client DEBUG_BUILD w error c).
Proof.
  split; [reflexivity|]. split; [|split].
  - intros l before after [H|H]; apply count_ignored;
      [now apply ignored_own | now apply ignored_tracing].
  - intros l before after Hn Ht He. now apply count_counted, counted_unmarked.
  - intros w' error c Hs Hr Hc. destruct (caughtFirstError c) eqn:Hf.
    + rewrite !handler_later by assumption. now rewrite Hs, Hr.
    + rewrite !handler_first by assumption. now rewrite Hs, Hr, Hc.
Qed.

(** C7: an error that arrives while the grace timer is armed
    ([caughtSecondError] true, [calledFatalError] false) changes nothing:
    the closure, the armed timers and the clock are as before and no call
    is made; any sequence of events has the same outcome with and
    without such an error in it. *)
Theorem later_errors_ignored
  (pre rest : list Event) (w : World) (error : Error) :
  caughtSecondError
    (closure (fst (run client DEBUG_BUILD initialProcess pre))) = true ->
  called (fst (run client DEBUG_BUILD initialProcess pre)) = false ->
  step client DEBUG_BUILD
    (fst (run client DEBUG_BUILD initialProcess pre))
    (UncaughtException w error)
  = (fst (run client DEBUG_BUILD initialProcess pre), [])
  /\ run client DEBUG_BUILD initialProcess
       (pre ++ UncaughtException w error :: rest)
     = run client DEBUG_BUILD initialProcess (pre ++ rest).
Proof.
  unfold called. intros Hs Hc.
  set (p := fst (run client DEBUG_BUILD initialProcess pre)) in *.
  assert (Hr : reachable client DEBUG_BUILD p) by (now exists pre).
  assert (Hf : caughtFirstError (closure p) = true).
  { destruct (caughtFirstError (closure p)) eqn:Hf; [reflexivity|].
    destruct (reachable_later p Hr Hf) as (Hs' & _). congruence. }
  assert (Hstep :
    step client DEBUG_BUILD p (UncaughtException w error) = (p, [])).
  { rewrite step_uncaught_later by assumption. rewrite Hc, Hs.
    now destruct (shouldApplyFatalHandlingLogic w). }
  split; [exact Hstep|].
  rewrite !run_app. fold p. cbn [run]. rewrite Hstep. reflexivity.
Qed.

(** C8: on the first error, [captureException] is called, with this
    error, exactly when the current client is the client the handler is
    bound to.  Whether or not it is, the error is stored as [firstError],
    and the termination logic runs the same: the flag is set and the
    resolved callback is called when the fatal logic applies. *)
Theorem capture_iff_client_current (p : Process) (w : World) (error : Error) :
  reachable client DEBUG_BUILD p ->
  caughtFirstError (closure p) = false ->
  (In (CaptureException error (fatalHint error))
      (snd (step client DEBUG_BUILD p (UncaughtException w error)))
   <-> getClient w = Some client)
  /\ existsb isCapture
       (snd (step client DEBUG_BUILD p (UncaughtException w error)))
     = clientIsCurrent client w
  /\ closure (fst (step client DEBUG_BUILD p (UncaughtException w error)))
     = {| caughtFirstError := true;
          caughtSecondError := false;
          calledFatalError := shouldApplyFatalHandlingLogic w;
          firstError := Some error |}
  /\ filter (fun eff => negb (isCapture eff))
       (snd (step client DEBUG_BUILD p (UncaughtException w error)))
     = (if shouldApplyFatalHandlingLogic w
        then [Invoke (resolveOnFatalError w) (Some error) None] else []).
Proof.
  intros Hr Hf. destruct (reachable_first p Hr Hf) as [Hc Ht].
  rewrite step_uncaught_first by assumption. rewrite Hc. cbn [fst snd].
  rewrite <- clientIsCurrent_iff.
  destruct (clientIsCurrent client w), (shouldApplyFatalHandlingLogic w);
    cbn; repeat split; intros; try tauto; try discriminate;
    intuition discriminate.
Qed.

(** C9: a listener whose name is ['domainUncaughtExceptionClear'] is not
    counted either.  Adding or removing one changes neither the count nor
    [shouldApplyFatalHandlingLogic]; and when, apart from handlers made
    here, only such listeners are registered, the first error terminates
    even though [exitEvenIfOtherHandlersAreRegistered] is false. *)
Theorem domain_listener_not_counted
  (w : World) (l : TaggedListener) (before after : list TaggedListener)
  (p : Process) (error : Error) :
  name l = domainListenerName ->
  userProvidedListenersCount (before ++ l :: after)
  = userProvidedListenersCount (before ++ after)
  /\ shouldApplyFatalHandlingLogic (withListeners w (before ++ l :: after))
     = shouldApplyFatalHandlingLogic (withListeners w (before ++ after))
  /\ (Forall
        (fun l' => name l' = domainListenerName \/ _errorHandler l' = true)
        (listeners w) ->
      exitEvenIfOtherHandlersAreRegistered (options w) = false ->
      reachable client DEBUG_BUILD p ->
      caughtFirstError (closure p) = false ->
      shouldApplyFatalHandlingLogic w = true
      /\ In (Invoke (resolveOnFatalError w) (Some error) None)
           (snd (step client DEBUG_BUILD p (UncaughtException w error)))
      /\ called (fst (step client DEBUG_BUILD p (UncaughtException w error)))
         = true).
Proof.
  intros Hn.
  assert (Hcount :
    userProvidedListenersCount (before ++ l :: after)
    = userProvidedListenersCount (before ++ after))
    by now apply count_ignored, ignored_domain.
  split; [exact Hcount|]. split.
  { unfold shouldApplyFatalHandlingLogic, processWouldExit, withListeners.
    cbn [listeners options]. now rewrite Hcount. }
  intros Hall He Hr Hf.
  assert (Hw : shouldApplyFatalHandlingLogic w = true).
  { unfold shouldApplyFatalHandlingLogic, processWouldExit.
    rewrite count_all_ignored; [apply orb_true_r|].
    eapply Forall_impl; [|exact Hall].
    intros l' [H|H]; [now apply ignored_domain | now apply ignored_own]. }
  split; [exact Hw|].
  destruct (reachable_first p Hr Hf) as [Hc Ht].
  rewrite step_uncaught_first by assumption. rewrite Hc, Hw. cbn [fst snd].
  split; [|reflexivity].
  apply in_or_app. right. now left.
Qed.

(** C10: at each invocation the callback is the integration's
    [onFatalError] if set, else the client options' [onFatalError] if
    set, else [logAndExitProcess].  The guarded paths use it: the first
    error calls it, the second error hands it to the timer, whose
    callback calls it; the only other call the handler makes is the
    forced [logAndExitProcess] after the flag is set. *)
Theorem onFatalError_resolution (w : World) (error : Error) (c : Closure) :
  (forall f, onFatalError (options w) = Some f -> resolveOnFatalError w = f)
  /\ (forall g,
        onFatalError (options w) = None ->
        clientOnFatalError (clientOptions w) = Some g ->
        resolveOnFatalError w = g)
  /\ (onFatalError (options w) = None ->
      clientOnFatalError (clientOptions w) = None ->
      resolveOnFatalError w = logAndExitProcess)
  /\ (caughtFirstError c = false ->
      calledFatalError c = false ->
      shouldApplyFatalHandlingLogic w = true ->
      In (Invoke (resolveOnFatalError w) (Some error) None)
        (effectsOf (makeErrorHandler client DEBUG_BUILD w error c)))
  /\ (caughtFirstError c = true ->
      caughtSecondError c = false ->
      calledFatalError c = false ->
      shouldApplyFatalHandlingLogic w = true ->
      effectsOf (makeErrorHandler client DEBUG_BUILD w error c)
      = [SetTimeout (graceCallback w error) timeout])
  /\ (forall c',
        calledFatalError c' = false ->
        effectsOf (timeoutCallback (graceCallback w error) c')
        = [Invoke (resolveOnFatalError w) (firstError c') (Some error)])
  /\ (forall f a b,
        In (Invoke f a b)
          (effectsOf (makeErrorHandler client DEBUG_BUILD w error c)) ->
        f = resolveOnFatalError w
        \/ (f = logAndExitProcess /\ calledFatalError c = true)).
Proof.
  unfold resolveOnFatalError.
  split; [now intros f ->|]. split; [now intros g -> ->|].
  split; [now intros -> ->|]. fold (resolveOnFatalError w).
  split; [|split; [|split]].
  - intros Hf Hc Hw. rewrite handler_first by assumption.
    rewrite Hc, Hw. unfold effectsOf. cbn [snd negb andb].
    apply in_or_app. right. now left.
  - intros Hf Hs Hc Hw. rewrite handler_later by assumption.
    now rewrite Hw, Hc, Hs.
  - intros c' Hc. rewrite callback_spec, Hc. reflexivity.
  - intros f a b. destruct (caughtFirstError c) eqn:Hf.
    + rewrite handler_later by assumption.
      destruct (shouldApplyFatalHandlingLogic w),
        (calledFatalError c), (caughtSecondError c), DEBUG_BUILD;
        unfold effectsOf; cbn; intros H; invoke_origin H.
    + rewrite handler_first by assumption.
      destruct (clientIsCurrent client w), (calledFatalError c),
        (shouldApplyFatalHandlingLogic w);
        unfold effectsOf; cbn; intros H; invoke_origin H.
Qed.

End Properties.

(** * The properties at concrete inputs *)

Lemma reachable_afterDeferredFirst : reachable 1%nat false afterDeferredFirst.
Proof. exists [UncaughtException deferringWorld E1]. reflexivity. Defined.

Lemma reachable_afterOverrideFirst : reachable 1%nat false afterOverrideFirst.
Proof. exists [UncaughtException overrideWorld E1]. reflexivity. Defined.

Lemma reachable_initialProcess : reachable 1%nat false initialProcess.
Proof. exists []. reflexivity. Defined.

(** C1 at work: after a first error under the default options the flag is
    set, and it is still set after a second error and after time has
    passed. *)
Lemma calledFatalError_set_once_witness :
  Forall (fun q => called q = true)
    (history 1%nat false initialProcess
       [UncaughtException defaultWorld E1; UncaughtException defaultWorld E2;
        Elapse 2000])
  /\ Forall (fun q => called q = true)
       (history 1%nat false afterOverrideFirst
          [UncaughtException overrideWorld E2; Elapse 2000]).
Proof.
  split.
  - apply (proj2 (proj2 (calledFatalError_set_once 1%nat false initialProcess
                           (UncaughtException defaultWorld E1)
                           [UncaughtException defaultWorld E2; Elapse 2000]))).
    reflexivity.
  - apply (proj1 (proj2 (calledFatalError_set_once 1%nat false afterOverrideFirst
                           (Elapse 0)
                           [UncaughtException overrideWorld E2; Elapse 2000]))).
    reflexivity.
Defined.

(** C2 at work: the first error was deferred; [E2] arrives once the user's
    listener is gone; 100 ms later a third error arrives; after 1900 ms more
    the timer fires and the callback gets [(E1, E2)]. *)
Lemma grace_timer_invokes_once_witness :
  snd (step 1%nat false
         (fst (run 1%nat false afterDeferredFirst
                 [UncaughtException deferringAloneWorld E2; Elapse 100;
                  UncaughtException deferringAloneWorld E3]))
         (Elapse 1900))
  = [Invoke logAndExitProcess (Some E1) (Some E2)]
  /\ pairInvocations
       (snd (run 1%nat false
               (fst (run 1%nat false afterDeferredFirst
                       [UncaughtException deferringAloneWorld E2; Elapse 100;
                        UncaughtException deferringAloneWorld E3;
                        Elapse 1900]))
               [UncaughtException deferringAloneWorld E3; Elapse 5000]))
     = 0%nat.
Proof.
  destruct (grace_timer_invokes_once 1%nat false afterDeferredFirst
              deferringAloneWorld E1 E2
              [Elapse 100; UncaughtException deferringAloneWorld E3]
              [UncaughtException deferringAloneWorld E3; Elapse 5000]
              1900
              reachable_afterDeferredFirst
              eq_refl eq_refl eq_refl eq_refl) as [_ H].
  destruct H as (_ & _ & H); [vm_compute; reflexivity|].
  destruct H as (Hfire & _ & Hrest); [vm_compute; discriminate|].
  split; [exact Hfire | exact Hrest].
Defined.

(** C3 as stated fails: under the default options, with no listener of the
    user, a first error is not reported when another client has become the
    current one. *)
Lemma first_error_stale_client_unreported :
  caughtFirstError (closure initialProcess) = false
  /\ options staleWorld = defaultOptions
  /\ userProvidedListenersCount (listeners staleWorld) = 0%nat
  /\ ~ (exists hint,
          In (CaptureException E1 hint)
            (snd (step 1%nat false initialProcess
                    (UncaughtException staleWorld E1)))).
Proof.
  repeat split. intros [hint H]. cbn in H.
  destruct H as [H|H]; [discriminate H | exact H].
Qed.

(** C3 (amended) at work, with the stale client and with the current one. *)
Lemma first_error_default_witness :
  step 1%nat false initialProcess (UncaughtException staleWorld E1)
  = ({| closure :=
          {| caughtFirstError := true;
             caughtSecondError := false;
             calledFatalError := true;
             firstError := Some E1 |};
        timers := [];
        now := 0 |},
     [Invoke logAndExitProcess (Some E1) None])
  /\ step 1%nat false initialProcess (UncaughtException defaultWorld E1)
     = ({| closure :=
             {| caughtFirstError := true;
                caughtSecondError := false;
                calledFatalError := true;
                firstError := Some E1 |};
           timers := [];
           now := 0 |},
        [CaptureException E1 (fatalHint E1);
         Invoke logAndExitProcess (Some E1) None]).
Proof.
  split.
  - exact (first_error_default 1%nat false initialProcess staleWorld E1
             reachable_initialProcess eq_refl eq_refl eq_refl).
  - exact (first_error_default 1%nat false initialProcess defaultWorld E1
             reachable_initialProcess eq_refl eq_refl eq_refl).
Defined.

(** C4 as stated fails: with an [onFatalError] of the integration's own,
    an error after the shutdown has begun does not reach that callback;
    [logAndExitProcess] is called instead. *)
Lemma error_after_shutdown_skips_override :
  called afterOverrideFirst = true
  /\ shouldApplyFatalHandlingLogic overrideWorld = true
  /\ resolveOnFatalError overrideWorld = userCallback "shutdown"
  /\ snd (step 1%nat false afterOverrideFirst
            (UncaughtException overrideWorld E2))
     = [Invoke logAndExitProcess (Some E2) None]
  /\ ~ (exists a b,
          In (Invoke (resolveOnFatalError overrideWorld) a b)
            (snd (step 1%nat false afterOverrideFirst
                    (UncaughtException overrideWorld E2)))).
Proof.
  repeat split. intros (a & b & H). cbn in H.
  destruct H as [H|H]; [discriminate H | exact H].
Qed.

(** C4 (amended) at work, in a debug build. *)
Lemma error_after_shutdown_witness :
  step 1%nat true afterOverrideFirst (UncaughtException overrideWorld E2)
  = (afterOverrideFirst,
     [LoggerWarn shutdownWarning; Invoke logAndExitProcess (Some E2) None]).
Proof.
  refine (error_after_shutdown 1%nat true afterOverrideFirst overrideWorld E2
            _ eq_refl eq_refl).
  exists [UncaughtException overrideWorld E1]. reflexivity.
Defined.

(** C5 at work: three errors and a long wait, a user's listener present
    throughout. *)
Lemma deferring_never_terminates_witness :
  filter isInvoke
    (snd (run 1%nat false initialProcess
            [UncaughtException deferringWorld E1;
             UncaughtException deferringWorld E2;
             Elapse 3000;
             UncaughtException deferringWorld E3]))
  = []
  /\ called
       (fst (run 1%nat false initialProcess
               [UncaughtException deferringWorld E1;
                UncaughtException deferringWorld E2;
                Elapse 3000;
                UncaughtException deferringWorld E3]))
     = false.
Proof.
  apply deferring_never_terminates.
  repeat constructor.
Defined.

(** C6 at work: the handler's own listener is not counted, a listener of
    the user is, and a world that differs only by a tracing listener is
    handled alike. *)
Lemma shouldApplyFatalHandlingLogic_spec_witness :
  userProvidedListenersCount ([userListener] ++ ownListener :: [])
  = userProvidedListenersCount ([userListener] ++ [])
  /\ userProvidedListenersCount ([ownListener] ++ userListener :: [])
     = S (userProvidedListenersCount ([ownListener] ++ []))
  /\ makeErrorHandler 1%nat false
       (withListeners defaultWorld [ownListener; tracingListener]) E1
       initialClosure
     = makeErrorHandler 1%nat false defaultWorld E1 initialClosure.
Proof.
  pose proof (shouldApplyFatalHandlingLogic_spec 1%nat false defaultWorld)
    as (_ & Hskip & Hcount & Hsame).
  split; [|split].
  - apply Hskip. left. reflexivity.
  - apply Hcount; [discriminate | discriminate | reflexivity].
  - apply Hsame; reflexivity.
Defined.

(** C7 at work: a third error 100 ms into the grace window. *)
Lemma later_errors_ignored_witness :
  run 1%nat false initialProcess
    ([UncaughtException deferringWorld E1;
      UncaughtException deferringAloneWorld E2;
      Elapse 100]
     ++ UncaughtException deferringAloneWorld E3 :: [Elapse 1900])
  = run 1%nat false initialProcess
      ([UncaughtException deferringWorld E1;
        UncaughtException deferringAloneWorld E2;
        Elapse 100]
       ++ [Elapse 1900]).
Proof.
  apply (later_errors_ignored 1%nat false
           [UncaughtException deferringWorld E1;
            UncaughtException deferringAloneWorld E2;
            Elapse 100]
           [Elapse 1900] deferringAloneWorld E3); reflexivity.
Defined.

(** C8 at work: with a stale client nothing is captured, and the callback
    is called all the same. *)
Lemma capture_iff_client_current_witness :
  existsb isCapture
    (snd (step 1%nat false initialProcess (UncaughtException staleWorld E1)))
  = false
  /\ filter (fun eff => negb (isCapture eff))
       (snd (step 1%nat false initialProcess
               (UncaughtException staleWorld E1)))
     = [Invoke logAndExitProcess (Some E1) None].
Proof.
  pose proof (capture_iff_client_current 1%nat false initialProcess
                staleWorld E1 reachable_initialProcess eq_refl)
    as (_ & Hnone & _ & Hrest).
  split; [exact Hnone | exact Hrest].
Defined.

(** C9 at work: the handler defers to other listeners, and node's domain
    listener is the only other one. *)
Lemma domain_listener_not_counted_witness :
  shouldApplyFatalHandlingLogic domainOnlyWorld = true
  /\ In (Invoke logAndExitProcess (Some E1) None)
       (snd (step 1%nat false initialProcess
               (UncaughtException domainOnlyWorld E1))).
Proof.
  pose proof (domain_listener_not_counted 1%nat false domainOnlyWorld
                domainListener [ownListener] [] initialProcess E1 eq_refl)
    as (_ & _ & H).
  assert (Hall :
    Forall (fun l' => name l' = domainListenerName \/ _errorHandler l' = true)
      (listeners domainOnlyWorld)).
  { constructor; [right; reflexivity|].
    constructor; [left; reflexivity | constructor]. }
  destruct (H Hall eq_refl reachable_initialProcess eq_refl) as (Hw & Hin & _).
  split; [exact Hw | exact Hin].
Defined.

(** C10 at work: a callback set in the client's options only is the one
    the first error calls. *)
Lemma onFatalError_resolution_witness :
  resolveOnFatalError clientOverrideWorld = userCallback "clientShutdown"
  /\ resolveOnFatalError overrideWorld = userCallback "shutdown"
  /\ resolveOnFatalError defaultWorld = logAndExitProcess
  /\ In (Invoke (userCallback "clientShutdown") (Some E1) None)
       (effectsOf
          (makeErrorHandler 1%nat false clientOverrideWorld E1 initialClosure))
  /\ effectsOf
       (makeErrorHandler 1%nat false clientOverrideWorld E2
          (closure afterDeferredFirst))
     = [SetTimeout (graceCallback clientOverrideWorld E2) timeout]
  /\ effectsOf
       (timeoutCallback (graceCallback clientOverrideWorld E2)
          (closure afterDeferredFirst))
     = [Invoke (userCallback "clientShutdown") (Some E1) (Some E2)].
Proof.
  pose proof (onFatalError_resolution 1%nat false clientOverrideWorld E1
                initialClosure) as (_ & Hclient & _ & Hfirst & _).
  pose proof (onFatalError_resolution 1%nat false clientOverrideWorld E2
                (closure afterDeferredFirst))
    as (_ & _ & _ & _ & Hsecond & Htimer & _).
  pose proof (onFatalError_resolution 1%nat false overrideWorld E1
                initialClosure) as (Hown & _).
  pose proof (onFatalError_resolution 1%nat false defaultWorld E1
                initialClosure) as (_ & _ & Hdefault & _).
  split; [now apply Hclient|]. split; [now apply Hown|].
  split; [now apply Hdefault|].
  split; [apply Hfirst; reflexivity|].
  split; [apply Hsecond; reflexivity|].
  apply (Htimer (closure afterDeferredFirst)). reflexivity.
Defined.

(** * Further properties of the handler *)

Section Lifetime.

Variable client : NodeClient.
Variable DEBUG_BUILD : bool.

Lemma reachable_run (p : Process) (evs : list Event) :
  reachable client DEBUG_BUILD p ->
  reachable client DEBUG_BUILD (fst (run client DEBUG_BUILD p evs)).
Proof.
  intros [pre <-]. exists (pre ++ evs). now rewrite run_app.
Qed.

Lemma step_keeps_first (p : Process) (ev : Event) :
  caughtFirstError (closure p) = true ->
  caughtFirstError (closure (fst (step client DEBUG_BUILD p ev))) = true
  /\ firstError (closure (fst (step client DEBUG_BUILD p ev)))
     = firstError (closure p).
Proof.
  intros Hf. destruct ev as [w error|ms].
  - rewrite step_uncaught_later by assumption.
    destruct (shouldApplyFatalHandlingLogic w), (calledFatalError (closure p)),
      (caughtSecondError (closure p)); cbn; auto.
  - rewrite step_elapse. cbn [fst closure]. rewrite fire_spec.
    destruct (filter _ (timers p)), (calledFatalError (closure p)); cbn; auto.
Qed.

Lemma run_keeps_first (evs : list Event) (p : Process) :
  caughtFirstError (closure p) = true ->
  caughtFirstError (closure (fst (run client DEBUG_BUILD p evs))) = true
  /\ firstError (closure (fst (run client DEBUG_BUILD p evs)))
     = firstError (closure p).
Proof.
  revert p. induction evs as [|ev evs IH]; intros p Hf; cbn [run fst].
  - auto.
  - destruct (step_keeps_first p ev Hf) as [Hf' He].
    destruct (IH _ Hf') as [Hf'' He']. split; congruence.
Qed.

Lemma elapse_before_first (p : Process) (ms : Z) :
  caughtFirstError (closure p) = false ->
  caughtFirstError (closure (fst (step client DEBUG_BUILD p (Elapse ms))))
  = false
  /\ firstError (closure (fst (step client DEBUG_BUILD p (Elapse ms))))
     = firstError (closure p)
  /\ filter isCapture (snd (step client DEBUG_BUILD p (Elapse ms))) = [].
Proof.
  intros Hf. rewrite step_elapse. cbn [fst snd closure]. rewrite fire_spec.
  destruct (filter _ (timers p)), (calledFatalError (closure p)); cbn; auto.
Qed.

Lemma run_first_delivery (evs : list Event) (p : Process) :
  caughtFirstError (closure p) = false ->
  firstError (closure (fst (run client DEBUG_BUILD p evs)))
  = match firstDelivery evs with
    | Some (_, error) => Some error
    | None => firstError (closure p)
    end.
Proof.
  revert p. induction evs as [|[w error|ms] evs IH]; intros p Hf;
    cbn [run fst firstDelivery].
  - reflexivity.
  - destruct (run_keeps_first evs
                (fst (step client DEBUG_BUILD p (UncaughtException w error))))
      as [_ ->];
      rewrite step_uncaught_first by assumption; reflexivity.
  - destruct (elapse_before_first p ms Hf) as (Hf' & He & _).
    rewrite IH by assumption. now rewrite He.
Qed.

(** X1: [firstError] is the first error delivered, and stays so: it is set by
    the first invocation and no later event overwrites it. *)
Theorem firstError_is_first_delivered (pre post : list Event) (error : Error) :
  firstError (closure (fst (run client DEBUG_BUILD initialProcess pre)))
  = option_map snd (firstDelivery pre)
  /\ (firstError (closure (fst (run client DEBUG_BUILD initialProcess pre)))
      = Some error ->
      firstError
        (closure (fst (run client DEBUG_BUILD initialProcess (pre ++ post))))
      = Some error).
Proof.
  split.
  - rewrite run_first_delivery by reflexivity.
    now destruct (firstDelivery pre) as [[w e]|].
  - intros He. rewrite run_app. cbn [fst].
    set (p := fst (run client DEBUG_BUILD initialProcess pre)) in *.
    assert (Hf : caughtFirstError (closure p) = true).
    { destruct (caughtFirstError (closure p)) eqn:Hf; [reflexivity|].
      assert (Hr : reachable client DEBUG_BUILD p) by (now exists pre).
      destruct (reachable_later client DEBUG_BUILD p Hr Hf) as (_ & _ & Hn).
      congruence. }
    destruct (run_keeps_first post p Hf) as [_ ->]. exact He.
Qed.

Lemma step_no_capture_later (p : Process) (ev : Event) :
  caughtFirstError (closure p) = true ->
  filter isCapture (snd (step client DEBUG_BUILD p ev)) = [].
Proof.
  intros Hf. destruct ev as [w error|ms].
  - rewrite step_uncaught_later by assumption.
    destruct (shouldApplyFatalHandlingLogic w), (calledFatalError (closure p)),
      (caughtSecondError (closure p)), DEBUG_BUILD; reflexivity.
  - rewrite step_elapse. cbn [snd]. rewrite fire_spec.
    destruct (filter _ (timers p)), (calledFatalError (closure p)); reflexivity.
Qed.

Lemma run_no_capture_later (evs : list Event) (p : Process) :
  caughtFirstError (closure p) = true ->
  filter isCapture (snd (run client DEBUG_BUILD p evs)) = [].
Proof.
  revert p. induction evs as [|ev evs IH]; intros p Hf; cbn [run snd].
  - reflexivity.
  - rewrite filter_app, step_no_capture_later by assumption.
    apply IH. now apply step_keeps_first.
Qed.

Lemma run_captures (evs : list Event) (p : Process) :
  caughtFirstError (closure p) = false ->
  filter isCapture (snd (run client DEBUG_BUILD p evs))
  = match firstDelivery evs with
    | Some (w, error) =>
        if clientIsCurrent client w
        then [CaptureException error (fatalHint error)] else []
    | None => []
    end.
Proof.
  revert p. induction evs as [|[w error|ms] evs IH]; intros p Hf;
    cbn [run snd firstDelivery].
  - reflexivity.
  - rewrite filter_app, run_no_capture_later
      by (rewrite step_uncaught_first by assumption; reflexivity).
    rewrite step_uncaught_first by assumption. cbn [snd].
    rewrite filter_app, app_nil_r.
    destruct (clientIsCurrent client w),
      (negb (calledFatalError (closure p)) && shouldApplyFatalHandlingLogic w);
      reflexivity.
  - destruct (elapse_before_first p ms Hf) as (Hf' & _ & Hnone).
    rewrite filter_app, Hnone. now apply IH.
Qed.

(** X2: over the whole life of the handler [captureException] is called at
    most once: for the first error delivered, if the bound client is the
    current one at that moment; no later error is ever reported. *)
Theorem capture_only_first_delivered (evs : list Event) :
  filter isCapture (snd (run client DEBUG_BUILD initialProcess evs))
  = match firstDelivery evs with
    | Some (w, error) =>
        if clientIsCurrent client w
        then [CaptureException error (fatalHint error)] else []
    | None => []
    end.
Proof.
  apply run_captures. reflexivity.
Qed.

Lemma step_arm_budget (p : Process) (ev : Event) :
  (List.length (filter isSetTimeout (snd (step client DEBUG_BUILD p ev)))
   + (if caughtSecondError (closure (fst (step client DEBUG_BUILD p ev)))
      then 0 else 1)
   <= if caughtSecondError (closure p) then 0 else 1)%nat.
Proof.
  destruct ev as [w error|ms].
  - destruct (caughtFirstError (closure p)) eqn:Hf.
    + rewrite step_uncaught_later by assumption.
      destruct (shouldApplyFatalHandlingLogic w),
        (calledFatalError (closure p)),
        (caughtSecondError (closure p)) eqn:Hs, DEBUG_BUILD;
        cbn; rewrite ?Hs; cbn; lia.
    + rewrite step_uncaught_first by assumption.
      destruct (clientIsCurrent client w),
        (negb (calledFatalError (closure p))
         && shouldApplyFatalHandlingLogic w),
        (caughtSecondError (closure p)); cbn; lia.
  - rewrite step_elapse. cbn [fst snd closure]. rewrite fire_spec.
    destruct (filter _ (timers p)), (calledFatalError (closure p)); cbn;
      destruct (caughtSecondError (closure p)); cbn; lia.
Qed.

Lemma run_arm_budget (evs : list Event) (p : Process) :
  (List.length (filter isSetTimeout (snd (run client DEBUG_BUILD p evs)))
   + (if caughtSecondError (closure (fst (run client DEBUG_BUILD p evs)))
      then 0 else 1)
   <= if caughtSecondError (closure p) then 0 else 1)%nat.
Proof.
  revert p. induction evs as [|ev evs IH]; intros p; cbn [run fst snd].
  - cbn. lia.
  - rewrite filter_app, List.length_app.
    pose proof (step_arm_budget p ev).
    specialize (IH (fst (step client DEBUG_BUILD p ev))). lia.
Qed.

(** X3: over the whole life of the handler [setTimeout] is called at most
    once, at most one timer is armed at any time, and at most one call
    with two errors is made. *)
Theorem at_most_one_grace_timer (evs : list Event) :
  (List.length
     (filter isSetTimeout (snd (run client DEBUG_BUILD initialProcess evs)))
   <= 1)%nat
  /\ (List.length (timers (fst (run client DEBUG_BUILD initialProcess evs)))
      <= 1)%nat
  /\ (pairInvocations (snd (run client DEBUG_BUILD initialProcess evs))
      <= 1)%nat.
Proof.
  pose proof (run_arm_budget evs initialProcess) as Harm.
  pose proof (run_budget client DEBUG_BUILD evs initialProcess) as Hbudget.
  unfold graceBudget in Hbudget. cbn in Harm, Hbudget.
  repeat split; lia.
Qed.

Lemma step_user_budget (p : Process) (ev : Event) :
  (List.length (filter isUserInvoke (snd (step client DEBUG_BUILD p ev)))
   + (if called (fst (step client DEBUG_BUILD p ev)) then 0 else 1)
   <= if called p then 0 else 1)%nat.
Proof.
  unfold called. destruct ev as [w error|ms].
  - destruct (caughtFirstError (closure p)) eqn:Hf.
    + rewrite step_uncaught_later by assumption.
      destruct (shouldApplyFatalHandlingLogic w),
        (calledFatalError (closure p)) eqn:Hc,
        (caughtSecondError (closure p)), DEBUG_BUILD;
        cbn; rewrite ?Hc; cbn; lia.
    + rewrite step_uncaught_first by assumption.
      destruct (clientIsCurrent client w),
        (calledFatalError (closure p)) eqn:Hc,
        (shouldApplyFatalHandlingLogic w); cbn;
        try destruct (resolveOnFatalError w); cbn; lia.
  - rewrite step_elapse. cbn [fst snd closure]. rewrite fire_spec.
    destruct (filter _ (timers p)) as [|t ts],
      (calledFatalError (closure p)) eqn:Hc; cbn; rewrite ?Hc;
      try destruct (cbOnFatalError (callback t)); cbn; lia.
Qed.

(** X4: A callback supplied by the caller, through the integration's options
    or the client's, is called at most once over the life of the handler. *)
Theorem user_callback_at_most_once (evs : list Event) :
  (List.length
     (filter isUserInvoke (snd (run client DEBUG_BUILD initialProcess evs)))
   <= 1)%nat.
Proof.
  assert (H : forall evs p,
    (List.length (filter isUserInvoke (snd (run client DEBUG_BUILD p evs)))
     + (if called (fst (run client DEBUG_BUILD p evs)) then 0 else 1)
     <= if called p then 0 else 1)%nat).
  { clear evs. induction evs as [|ev evs IH]; intros p; cbn [run fst snd].
    - cbn. lia.
    - rewrite filter_app, List.length_app.
      pose proof (step_user_budget p ev).
      specialize (IH (fst (step client DEBUG_BUILD p ev))). lia. }
  specialize (H evs initialProcess). cbn in H. lia.
Qed.

End Lifetime.

Section Eager.

Variable client : NodeClient.
Variable DEBUG_BUILD : bool.

Lemma eager_applies (w : World) (error : Error) :
  eager (UncaughtException w error) -> shouldApplyFatalHandlingLogic w = true.
Proof.
  cbn. intros H. unfold shouldApplyFatalHandlingLogic. now rewrite H.
Qed.

Lemma eager_step (p : Process) (ev : Event) :
  timers p = [] ->
  caughtFirstError (closure p) = called p ->
  eager ev ->
  timers (fst (step client DEBUG_BUILD p ev)) = []
  /\ caughtFirstError (closure (fst (step client DEBUG_BUILD p ev)))
     = called (fst (step client DEBUG_BUILD p ev))
  /\ filter isSetTimeout (snd (step client DEBUG_BUILD p ev)) = []
  /\ pairInvocations (snd (step client DEBUG_BUILD p ev)) = 0%nat
  /\ List.length (filter isInvoke (snd (step client DEBUG_BUILD p ev)))
     = deliveries [ev].
Proof.
  unfold called. intros Ht Hfc Hev. destruct ev as [w error|ms].
  - apply eager_applies in Hev.
    destruct (caughtFirstError (closure p)) eqn:Hf.
    + rewrite step_uncaught_later by assumption. rewrite Hev, <- Hfc.
      cbn [fst snd]. rewrite Ht, Hf, <- Hfc. destruct DEBUG_BUILD; now cbn.
    + rewrite step_uncaught_first by assumption. rewrite Hev, <- Hfc.
      cbn [fst snd closure timers]. rewrite Ht.
      destruct (clientIsCurrent client w); now cbn.
  - rewrite step_elapse, Ht. cbn. auto.
Qed.

Lemma eager_run (evs : list Event) (p : Process) :
  timers p = [] ->
  caughtFirstError (closure p) = called p ->
  Forall eager evs ->
  timers (fst (run client DEBUG_BUILD p evs)) = []
  /\ filter isSetTimeout (snd (run client DEBUG_BUILD p evs)) = []
  /\ pairInvocations (snd (run client DEBUG_BUILD p evs)) = 0%nat
  /\ List.length (filter isInvoke (snd (run client DEBUG_BUILD p evs)))
     = deliveries evs.
Proof.
  revert p. induction evs as [|ev evs IH]; intros p Ht Hfc Hall;
    cbn [run fst snd].
  - now cbn.
  - apply Forall_cons_iff in Hall. destruct Hall as [Hev Hall].
    destruct (eager_step p ev Ht Hfc Hev) as (Ht' & Hfc' & Hs & Hp & Hn).
    destruct (IH _ Ht' Hfc' Hall) as (Ht'' & Hs' & Hp' & Hn').
    rewrite !filter_app, pairInvocations_app, List.length_app.
    rewrite Hs, Hs', Hp, Hp', Hn, Hn'.
    repeat split; auto. destruct ev; cbn; lia.
Qed.

(** X5: while [exitEvenIfOtherHandlersAreRegistered] is set (the default), the
    grace timer is never used: no timer is armed, no call with two errors
    is made, and every error delivered gets exactly one call of a fatal
    error callback, in its own invocation. *)
Theorem eager_never_waits (evs : list Event) :
  Forall eager evs ->
  timers (fst (run client DEBUG_BUILD initialProcess evs)) = []
  /\ filter isSetTimeout (snd (run client DEBUG_BUILD initialProcess evs)) = []
  /\ pairInvocations (snd (run client DEBUG_BUILD initialProcess evs)) = 0%nat
  /\ List.length
       (filter isInvoke (snd (run client DEBUG_BUILD initialProcess evs)))
     = deliveries evs.
Proof. intros H. now apply eager_run. Qed.

End Eager.

Section Deadline.

Variable client : NodeClient.
Variable DEBUG_BUILD : bool.

Lemma fire_due_called (ts : list Timer) (c : Closure) :
  ts <> [] -> calledFatalError (fst (fire ts c)) = true.
Proof.
  intros H. rewrite fire_spec. destruct ts as [|t ts]; [congruence|].
  destruct (calledFatalError c) eqn:Hc; cbn; auto.
Qed.

(** What becomes of an armed timer when time passes: it fires, and the
    callback has been called afterwards, or it stays armed. *)
Lemma elapse_timer (p : Process) (ms : Z) (t : Timer) :
  In t (timers p) ->
  called (fst (step client DEBUG_BUILD p (Elapse ms))) = true
  \/ In t (timers (fst (step client DEBUG_BUILD p (Elapse ms)))).
Proof.
  intros Hin. rewrite step_elapse. cbn [fst]. unfold called. cbn [closure timers].
  destruct (isDue (now p + Z.max 0 ms) t) eqn:Hdue.
  - left. apply fire_due_called. intros Hnil.
    assert (Hf : In t (filter (isDue (now p + Z.max 0 ms)) (timers p)))
      by (apply filter_In; auto).
    rewrite Hnil in Hf. contradiction.
  - right. apply filter_In. split; [assumption|]. now rewrite Hdue.
Qed.

Lemma uncaught_timers (p : Process) (w : World) (error : Error) (t : Timer) :
  In t (timers p) ->
  In t (timers (fst (step client DEBUG_BUILD p (UncaughtException w error)))).
Proof.
  intros Hin. cbn [step fst timers]. apply in_or_app. now left.
Qed.

Lemma timersAhead_step (p : Process) (ev : Event) :
  timersAhead p -> timersAhead (fst (step client DEBUG_BUILD p ev)).
Proof.
  unfold timersAhead. intros H. destruct ev as [w error|ms].
  - destruct (caughtFirstError (closure p)) eqn:Hf.
    + rewrite step_uncaught_later by assumption.
      destruct (shouldApplyFatalHandlingLogic w),
        (calledFatalError (closure p)), (caughtSecondError (closure p));
        cbn [fst timers now]; auto.
      apply Forall_app. split; [assumption|].
      constructor; [|constructor]. cbn. unfold timeout. lia.
    + rewrite step_uncaught_first by assumption. exact H.
  - rewrite step_elapse. cbn [fst timers now].
    apply Forall_forall. intros t Hin. apply filter_In in Hin.
    destruct Hin as [_ Hdue]. unfold isDue in Hdue.
    destruct (Z.leb_spec (due t) (now p + Z.max 0 ms)); [discriminate|lia].
Qed.

Lemma committed_step (deadline : Z) (p : Process) (ev : Event) :
  committed deadline p ->
  committed deadline (fst (step client DEBUG_BUILD p ev)).
Proof.
  intros [Hc|(t & Hin & Hdue)].
  - left. now apply step_monotone.
  - destruct ev as [w error|ms].
    + right. exists t. split; [now apply uncaught_timers|assumption].
    + destruct (elapse_timer p ms t Hin) as [Hc|Hin'];
        [now left | right; now exists t].
Qed.

Lemma committed_run (deadline : Z) (evs : list Event) (p : Process) :
  committed deadline p ->
  committed deadline (fst (run client DEBUG_BUILD p evs)).
Proof.
  revert p. induction evs as [|ev evs IH]; intros p H; cbn [run fst].
  - assumption.
  - apply IH. now apply committed_step.
Qed.

Lemma graceCovered_step (p : Process) (ev : Event) :
  graceCovered p -> graceCovered (fst (step client DEBUG_BUILD p ev)).
Proof.
  unfold graceCovered. intros H. destruct ev as [w error|ms].
  - destruct (caughtFirstError (closure p)) eqn:Hf.
    + rewrite step_uncaught_later by assumption.
      destruct (shouldApplyFatalHandlingLogic w),
        (calledFatalError (closure p)) eqn:Hc,
        (caughtSecondError (closure p)) eqn:Hs; cbn [fst];
        try (intros Hx; first [congruence | now apply H]).
      intros _. right. eexists. split.
      * cbn [timers]. apply in_or_app. right. now left.
      * cbn. lia.
    + rewrite step_uncaught_first by assumption. unfold called.
      cbn [fst closure timers now caughtSecondError calledFatalError].
      intros Hs. destruct (H Hs) as [Hc|Ht]; [left|now right].
      unfold called in Hc. now rewrite Hc.
  - intros Hs.
    assert (Hs' : caughtSecondError (closure p) = true).
    { rewrite step_elapse in Hs. cbn [fst closure] in Hs.
      rewrite fire_spec in Hs.
      destruct (filter _ (timers p)), (calledFatalError (closure p));
        exact Hs. }
    destruct (H Hs') as [Hc|(t & Hin & Hdue)].
    + left. now apply step_monotone.
    + destruct (elapse_timer p ms t Hin) as [Hc|Hin']; [now left|].
      right. exists t. split; [assumption|].
      pose proof (step_now client DEBUG_BUILD p (Elapse ms)). lia.
Qed.

Lemma reachable_ahead_covered (p : Process) :
  reachable client DEBUG_BUILD p -> timersAhead p /\ graceCovered p.
Proof.
  intros [evs <-].
  assert (H : forall evs p,
    timersAhead p /\ graceCovered p ->
    timersAhead (fst (run client DEBUG_BUILD p evs))
    /\ graceCovered (fst (run client DEBUG_BUILD p evs))).
  { clear evs. induction evs as [|ev evs IH]; intros p [Ha Hg]; cbn [run fst].
    - now split.
    - apply IH. split;
        [now apply timersAhead_step | now apply graceCovered_step]. }
  apply H. split; [constructor | discriminate].
Qed.

(** X6: an error that arrives while the fatal logic applies commits the
    handler: a fatal error callback has been called by the time the clock
    has advanced 2000 ms past that error, whatever else happens
    meanwhile. *)
Theorem terminates_within_grace
  (p : Process) (w : World) (error : Error) (evs : list Event) :
  reachable client DEBUG_BUILD p ->
  shouldApplyFatalHandlingLogic w = true ->
  now p + 2000
  <= now (fst (run client DEBUG_BUILD p (UncaughtException w error :: evs))) ->
  called (fst (run client DEBUG_BUILD p (UncaughtException w error :: evs)))
  = true.
Proof.
  intros Hr Hw Hlate.
  destruct (reachable_ahead_covered p Hr) as [_ Hcov].
  assert (Hcommit :
    committed (now p + 2000)
      (fst (step client DEBUG_BUILD p (UncaughtException w error)))).
  { unfold committed, called.
    destruct (caughtFirstError (closure p)) eqn:Hf.
    - rewrite step_uncaught_later by assumption. rewrite Hw.
      destruct (calledFatalError (closure p)) eqn:Hc; [now left|].
      destruct (caughtSecondError (closure p)) eqn:Hs; cbn [fst].
      + destruct (Hcov Hs) as [Hc'|Ht]; [unfold called in Hc'; congruence|].
        right. exact Ht.
      + right. eexists. split.
        * cbn [timers]. apply in_or_app. right. now left.
        * cbn. unfold timeout. lia.
    - destruct (reachable_later client DEBUG_BUILD p Hr Hf) as (_ & Hc & _).
      rewrite step_uncaught_first by assumption. left. cbn.
      now rewrite Hc, Hw. }
  cbn [run fst] in *.
  set (q := fst (run client DEBUG_BUILD
                   (fst (step client DEBUG_BUILD p (UncaughtException w error)))
                   evs)) in *.
  assert (Hq : reachable client DEBUG_BUILD q)
    by (apply reachable_run, reachable_step; assumption).
  destruct (reachable_ahead_covered q Hq) as [Hahead _].
  destruct (committed_run _ evs _ Hcommit) as [Hc|(t & Hin & Hdue)];
    [exact Hc|].
  fold q in Hin. unfold timersAhead in Hahead.
  rewrite Forall_forall in Hahead. specialize (Hahead t Hin). lia.
Qed.

End Deadline.

(** * The integration *)

Lemma count_setup (ls : list TaggedListener) :
  userProvidedListenersCount (setup ls) = userProvidedListenersCount ls.
Proof.
  unfold setup. rewrite (count_ignored handlerListener ls []) by reflexivity.
  now rewrite app_nil_r.
Qed.

(** X7: registering the handler, once or repeatedly, never changes the number
    of listeners it counts as the user's: the handler does not count
    itself or other instances of itself. *)
Theorem setup_not_counted (n : nat) (ls : list TaggedListener) :
  userProvidedListenersCount (Nat.iter n setup ls)
  = userProvidedListenersCount ls.
Proof.
  induction n as [|n IH]; [reflexivity|].
  change (Nat.iter (S n) setup ls) with (setup (Nat.iter n setup ls)).
  now rewrite count_setup.
Qed.

(** X8: an integration created without options, or without the
    [exitEvenIfOtherHandlersAreRegistered] property, applies the fatal
    logic whatever listeners are registered: the first error calls the
    resolved callback in the same invocation. *)
Theorem integration_exits_by_default
  (client : NodeClient) (DEBUG_BUILD : bool)
  (given : option PartialOptions) (w : World) (error : Error) :
  match given with
  | Some o => givenExit o = absent
  | None => True
  end ->
  options w = integrationOptions given ->
  shouldApplyFatalHandlingLogic w = true
  /\ In (Invoke (resolveOnFatalError w) (Some error) None)
       (snd (step client DEBUG_BUILD initialProcess
               (UncaughtException w error)))
  /\ called (fst (step client DEBUG_BUILD initialProcess
                    (UncaughtException w error)))
     = true.
Proof.
  intros Hgiven Ho.
  assert (Hw : shouldApplyFatalHandlingLogic w = true).
  { unfold shouldApplyFatalHandlingLogic. rewrite Ho.
    destruct given as [o|]; cbn; [now rewrite Hgiven | reflexivity]. }
  split; [exact Hw|].
  rewrite step_uncaught_first by reflexivity. rewrite Hw. cbn.
  split; [|reflexivity]. apply in_or_app. right. now left.
Qed.

(** X9: A property [exitEvenIfOtherHandlersAreRegistered] that is present
    replaces the default even when its value is [undefined]: the handler
    then defers to a listener of the user, and the first error calls no
    fatal error callback. *)
Theorem explicit_undefined_defers
  (client : NodeClient) (DEBUG_BUILD : bool)
  (o : PartialOptions) (w : World) (error : Error) :
  givenExit o = present None ->
  options w = integrationOptions (Some o) ->
  (0 < userProvidedListenersCount (listeners w))%nat ->
  filter isInvoke
    (snd (step client DEBUG_BUILD initialProcess (UncaughtException w error)))
  = []
  /\ called (fst (step client DEBUG_BUILD initialProcess
                    (UncaughtException w error)))
     = false.
Proof.
  intros Hgiven Ho Hn.
  assert (Hev : deferring (UncaughtException w error)).
  { cbn. rewrite Ho. cbn. rewrite Hgiven. split; [reflexivity|assumption]. }
  pose proof (deferring_never_terminates client DEBUG_BUILD
                [UncaughtException w error]
                (Forall_cons _ Hev (Forall_nil _))) as [Hnone Hc].
  cbn [run fst snd] in Hnone, Hc. rewrite app_nil_r in Hnone.
  split; assumption.
Qed.

(** * The [Transaction] integration *)

Section TransactionFacts.

Import Transaction.

Lemma occurs_app (c : Ascii.ascii) (a b : string) :
  occurs c (a ++ b)%string = occurs c a || occurs c b.
Proof.
  induction a as [|x a IH]; cbn; [reflexivity|].
  now rewrite IH, orb_assoc.
Qed.

Lemma orElse_nonempty (s : option string) (fallback : string) :
  fallback <> EmptyString -> orElse s fallback <> EmptyString.
Proof. intros H. destruct s as [[|a s]|]; cbn; congruence. Qed.

(** X10: [_getTransaction] answers ['<unknown>'] exactly when the frame has
    neither a module nor a function name (missing or empty); otherwise the
    name has a non-empty part on either side of a slash, a missing part
    being ['?'].  It is never the empty string. *)
Theorem getTransaction_shape (frame : StackFrame) :
  (_getTransaction frame = "<unknown>"%string
   <-> truthy (module frame) = false /\ truthy (function frame) = false)
  /\ _getTransaction frame <> EmptyString
  /\ (truthy (module frame) || truthy (function frame) = true ->
      _getTransaction frame
      = (orElse (module frame) "?" ++ "/" ++ orElse (function frame) "?")%string
      /\ orElse (module frame) "?" <> EmptyString
      /\ orElse (function frame) "?" <> EmptyString
      /\ (truthy (module frame) = true ->
          module frame = Some (orElse (module frame) "?"))
      /\ (truthy (function frame) = true ->
          function frame = Some (orElse (function frame) "?"))).
Proof.
  unfold _getTransaction.
  destruct (truthy (module frame) || truthy (function frame)) eqn:Ht.
  - split; [split|split].
    + intros H.
      apply (f_equal (occurs "/"%char)) in H.
      rewrite occurs_app in H. cbn in H.
      rewrite orb_true_r in H. discriminate H.
    + intros [Hm Hf]. rewrite Hm, Hf in Ht. discriminate Ht.
    + destruct (orElse (module frame) "?") eqn:Hm; [|discriminate].
      now apply orElse_nonempty in Hm.
    + intros _. split; [reflexivity|].
      split; [now apply orElse_nonempty|].
      split; [now apply orElse_nonempty|].
      split.
      * destruct (module frame) as [[|a s]|]; cbn; try discriminate; auto.
      * destruct (function frame) as [[|a s]|]; cbn; try discriminate; auto.
  - apply orb_false_iff in Ht. split; [tauto|].
    split; [discriminate|]. discriminate.
Qed.

Lemma scan_none (fs : list StackFrame) (i : nat) :
  (forall f, In f fs -> inApp f = false) -> scan i fs = None.
Proof.
  intros H. induction i as [|j IH]; cbn; [reflexivity|].
  destruct (nth_error fs j) as [f|] eqn:Hn; [|exact IH].
  apply nth_error_In in Hn. now rewrite (H f Hn).
Qed.

Lemma scan_last (pre post : list StackFrame) (f : StackFrame) (k : nat) :
  inApp f = true ->
  Forall (fun g => inApp g = false) post ->
  (k <= List.length post)%nat ->
  scan (List.length pre + 1 + k) (pre ++ f :: post) = Some f.
Proof.
  intros Hf Hpost. induction k as [|k IH]; intros Hk.
  - replace (List.length pre + 1 + 0)%nat with (S (List.length pre)) by lia.
    cbn [scan]. rewrite nth_error_app2 by lia.
    rewrite Nat.sub_diag. cbn. now rewrite Hf.
  - replace (List.length pre + 1 + S k)%nat
      with (S (List.length pre + 1 + k)) by lia.
    cbn [scan]. rewrite nth_error_app2 by lia.
    replace (List.length pre + 1 + k - List.length pre)%nat with (S k) by lia.
    cbn [nth_error].
    destruct (nth_error post k) as [g|] eqn:Hg.
    + rewrite Forall_forall in Hpost.
      rewrite (Hpost g (nth_error_In _ _ Hg)). apply IH. lia.
    + apply nth_error_None in Hg. lia.
Qed.

Lemma inApp_false (f : StackFrame) :
  in_app f <> Some true -> inApp f = false.
Proof. unfold inApp. destruct (in_app f) as [[]|]; congruence. Qed.

(** X11: an event without a frame marked [in_app: true] comes back unchanged;
    this includes events with no exception, no values, no stack trace or
    no frames. *)
Theorem processEvent_without_in_app (event : SentryEvent) :
  (forall f, In f (_getFramesFromEvent event) -> in_app f <> Some true) ->
  processEvent event = event.
Proof.
  intros H. unfold processEvent. rewrite scan_none; [reflexivity|].
  intros f Hf. now apply inApp_false, H.
Qed.

(** X12: the transaction is named after the last frame marked [in_app: true]
    of the first exception's stack trace. *)
Theorem processEvent_last_in_app
  (event : SentryEvent) (pre post : list StackFrame) (f : StackFrame) :
  _getFramesFromEvent event = pre ++ f :: post ->
  in_app f = Some true ->
  Forall (fun g => in_app g <> Some true) post ->
  processEvent event = setTransaction event (_getTransaction f).
Proof.
  intros Hfs Hf Hpost. unfold processEvent. rewrite Hfs.
  replace (List.length (pre ++ f :: post))
    with (List.length pre + 1 + List.length post)%nat
    by (rewrite List.length_app; cbn; lia).
  rewrite scan_last; [reflexivity| |auto|lia].
  - unfold inApp. now rewrite Hf.
  - eapply Forall_impl; [|exact Hpost]. intros g. apply inApp_false.
Qed.

(** X13: [processEvent] changes nothing but [transaction], and processing an
    event a second time changes nothing more. *)
Theorem processEvent_idempotent (event : SentryEvent) :
  processEvent (processEvent event) = processEvent event
  /\ exception (processEvent event) = exception event
  /\ otherProperties (processEvent event) = otherProperties event.
Proof.
  unfold processEvent.
  destruct (scan (List.length (_getFramesFromEvent event))
              (_getFramesFromEvent event)) as [f|] eqn:Hs.
  - change (_getFramesFromEvent (setTransaction event (_getTransaction f)))
      with (_getFramesFromEvent event).
    rewrite Hs. repeat split.
  - rewrite Hs. repeat split.
Qed.

End TransactionFacts.

(** * The prepack script *)

Section PrepackFacts.

Import Prepack.

Local Open Scope string_scope.

Lemma replace_eq (pattern replacement s : string) :
  replace pattern replacement s
  = match stripPrefix pattern s with
    | Some rest => replacement ++ rest
    | None =>
        match s with
        | EmptyString => EmptyString
        | String c rest => String c (replace pattern replacement rest)
        end
    end.
Proof. destruct s; reflexivity. Qed.

Lemma stripPrefix_app (pattern rest : string) :
  stripPrefix pattern (pattern ++ rest) = Some rest.
Proof.
  induction pattern as [|a pattern IH]; cbn; [reflexivity|].
  now rewrite Ascii.eqb_refl.
Qed.

Lemma stripPrefix_inv (pattern s rest : string) :
  stripPrefix pattern s = Some rest -> s = pattern ++ rest.
Proof.
  revert s. induction pattern as [|a pattern IH]; intros s H; cbn in *.
  - congruence.
  - destruct s as [|b s]; [discriminate|].
    destruct (Ascii.eqb_spec a b) as [->|]; [|discriminate].
    now rewrite (IH s H).
Qed.

Lemma replace_absent (pattern replacement s : string) :
  (forall a b, s <> a ++ pattern ++ b) ->
  replace pattern replacement s = s.
Proof.
  induction s as [|c s IH]; intros H; rewrite replace_eq.
  - destruct (stripPrefix pattern EmptyString) as [rest|] eqn:E;
      [|reflexivity].
    apply stripPrefix_inv in E. now destruct (H EmptyString rest).
  - destruct (stripPrefix pattern (String c s)) as [rest|] eqn:E.
    + apply stripPrefix_inv in E. now destruct (H EmptyString rest).
    + f_equal. apply IH. intros a b Hs. apply (H (String c a) b).
      cbn. now rewrite Hs.
Qed.

Lemma replace_first (pattern replacement : string) (a b s : string) :
  s = a ++ pattern ++ b ->
  (forall a' b',
     s = a' ++ pattern ++ b' -> (String.length a <= String.length a')%nat) ->
  replace pattern replacement s = a ++ replacement ++ b.
Proof.
  revert s. induction a as [|c a IH]; intros s Hs Hmin; rewrite replace_eq.
  - cbn in Hs. subst s. now rewrite stripPrefix_app.
  - cbn in Hs. subst s.
    destruct (stripPrefix pattern (String c (a ++ pattern ++ b)))
      as [rest|] eqn:E.
    + apply stripPrefix_inv in E.
      specialize (Hmin EmptyString rest E). cbn in Hmin. lia.
    + cbn. f_equal. apply IH; [reflexivity|].
      intros a' b' Hs. specialize (Hmin (String c a') b').
      cbn in Hmin. rewrite Hs in Hmin. specialize (Hmin eq_refl). lia.
Qed.

(** X14: [replace] rewrites the first occurrence of the pattern and nothing
    else: a string in which the pattern does not occur comes back
    unchanged, and in any other string the leftmost occurrence is replaced
    while everything before and after it is kept. *)
Theorem replace_first_occurrence (pattern replacement s a b : string) :
  ((forall a' b', s <> a' ++ pattern ++ b') ->
   replace pattern replacement s = s)
  /\ (s = a ++ pattern ++ b ->
      (forall a' b',
         s = a' ++ pattern ++ b' ->
         (String.length a <= String.length a')%nat) ->
      replace pattern replacement s = a ++ replacement ++ b).
Proof. split; [apply replace_absent | apply replace_first]. Qed.

Lemma stripBuildDir_prefix (buildDir rest : string) :
  stripBuildDir buildDir (buildDir ++ "/" ++ rest) = rest.
Proof.
  unfold stripBuildDir.
  rewrite (replace_first (buildDir ++ "/") EmptyString EmptyString rest).
  - reflexivity.
  - cbn. induction buildDir as [|c d IH]; cbn; [reflexivity|now rewrite IH].
  - intros. cbn. lia.
Qed.

Lemma stripBuildDir_empty (buildDir : string) :
  stripBuildDir buildDir EmptyString = EmptyString.
Proof. unfold stripBuildDir. now destruct buildDir. Qed.

(** X15: an entry point that lies in the build directory is rebased on it,
    whatever follows; a missing or empty entry point stays as it is, and
    so does one in which [buildDir/] does not occur. *)
Theorem entry_point_rebased (buildDir rest path : string) :
  rewriteEntryPoint buildDir (Some (buildDir ++ "/" ++ rest)) = Some rest
  /\ rewriteEntryPoint buildDir None = None
  /\ rewriteEntryPoint buildDir (Some EmptyString) = Some EmptyString
  /\ ((forall a b, path <> a ++ (buildDir ++ "/") ++ b) ->
      rewriteEntryPoint buildDir (Some path) = Some path).
Proof.
  split; [|split; [reflexivity|split; [reflexivity|]]].
  - unfold rewriteEntryPoint.
    destruct (buildDir ++ "/" ++ rest) as [|c s] eqn:E.
    + destruct buildDir; discriminate E.
    + rewrite <- E. now rewrite stripBuildDir_prefix.
  - intros H. destruct path as [|c s]; [reflexivity|].
    cbn [rewriteEntryPoint]. unfold stripBuildDir.
    now rewrite replace_absent.
Qed.

Lemma ExportsField_induction (P : ExportsField -> Prop) :
  (forall s, P (ExportsString s)) ->
  P ExportsOther ->
  (forall entries,
     Forall (fun entry => P (snd entry)) entries ->
     P (ExportsObject entries)) ->
  forall value, P value.
Proof.
  intros Hs Ho Hobj. fix IH 1. intros [s|entries|].
  - apply Hs.
  - apply Hobj. induction entries as [|[k v] entries IHe].
    + constructor.
    + constructor; [apply IH | exact IHe].
  - apply Ho.
Qed.

(** X16: rewriting a value of the export map rewrites every string in it, at
    any depth, and leaves all keys and their order as they are. *)
Theorem rewriteField_strings_keys (buildDir : string) (value : ExportsField) :
  strings (rewriteField buildDir value)
  = map (stripBuildDir buildDir) (strings value)
  /\ keys (rewriteField buildDir value) = keys value.
Proof.
  induction value as [s| |entries IH] using ExportsField_induction.
  - destruct s as [|c s]; cbn [rewriteField strings keys map]; [|auto].
    now rewrite stripBuildDir_empty.
  - now cbn.
  - cbn [rewriteField strings keys].
    induction IH as [|[k v] entries [Hs Hk] _ IHe]; [now cbn|].
    destruct IHe as [IHs IHk]. cbn in *.
    rewrite List.map_app, Hs, Hk, IHs, IHk. now split.
Qed.

Lemma rewrite_keys (buildDir : string) (ks : list string)
  (exportsObject : list (string * ExportsField)) :
  NoDup ks ->
  fold_left (rewriteConditionalExportEntryPoint buildDir) ks exportsObject
  = map (fun entry : string * ExportsField =>
           let (k, v) := entry in
           if existsb (String.eqb k) ks
           then (k, rewriteField buildDir v) else (k, v))
      exportsObject.
Proof.
  intros Hnd. revert exportsObject.
  induction Hnd as [|k0 ks Hnotin Hnd IH]; intros exportsObject; cbn [fold_left].
  - rewrite <- (map_id exportsObject) at 1. apply map_ext. now intros [k v].
  - rewrite IH. unfold rewriteConditionalExportEntryPoint. rewrite map_map.
    apply map_ext. intros [k v]. cbn [existsb].
    destruct (String.eqb_spec k k0) as [->|Hne]; cbn [orb]; [|reflexivity].
    destruct (existsb (String.eqb k0) ks) eqn:E; [|reflexivity].
    apply existsb_exists in E. destruct E as (x & Hin & Hx).
    apply String.eqb_eq in Hx. subst x. contradiction.
Qed.

(** X17: going through the keys of the export map one by one, as [prepack]
    does, rewrites the value under every key exactly once. *)
Theorem rewriteExports_every_key
  (buildDir : string) (exportsObject : list (string * ExportsField)) :
  NoDup (map fst exportsObject) ->
  rewriteExports buildDir exportsObject
  = map (fun entry : string * ExportsField =>
           (fst entry, rewriteField buildDir (snd entry)))
      exportsObject.
Proof.
  intros Hnd. unfold rewriteExports. rewrite rewrite_keys by assumption.
  apply map_ext_in. intros [k v] Hin. cbn [fst snd].
  replace (existsb (String.eqb k) (map fst exportsObject)) with true;
    [reflexivity|].
  symmetry. apply existsb_exists. exists k. split.
  - now apply (in_map fst) in Hin.
  - apply String.eqb_refl.
Qed.

(** X18: A source map is rewritten once: the content written back carries the
    mark, so a second pass returns before writing.  The first pass takes
    the first ["../../"] of every source to ["../"], so a source that
    starts with it moves up one level, and keeps all other properties. *)
Theorem rewriteSourceMap_once (m m' : SourceMap) (srcs : list string) :
  (_processed m = true -> rewriteSourceMap m = None)
  /\ (rewriteSourceMap m = Some m' ->
      rewriteSourceMap m' = None
      /\ otherMapProperties m' = otherMapProperties m
      /\ (sources m = None -> sources m' = None)
      /\ (sources m = Some srcs ->
          sources m' = Some (map (replace "../../" "../") srcs)
          /\ forall rest,
               In ("../../" ++ rest) srcs ->
               exists srcs', sources m' = Some srcs' /\ In ("../" ++ rest) srcs')).
Proof.
  unfold rewriteSourceMap. split; [now intros ->|].
  destruct (_processed m); [discriminate|].
  intros H. injection H as <-. cbn.
  split; [reflexivity|]. split; [reflexivity|]. split; [now intros ->|].
  intros ->. split; [reflexivity|].
  intros rest Hin. eexists. split; [reflexivity|].
  apply (in_map (replace "../../" "../")) in Hin. exact Hin.
Qed.

End PrepackFacts.

(** * The mutation test report *)

Section MutationFacts.

Import Mutation.

Local Open Scope string_scope.

Lemma aggregation_split (statuses : list string) :
  (withStatus "Killed" statuses + withStatus "Timeout" statuses
   + (withStatus "Survived" statuses + withStatus "NoCoverage" statuses)
   + withStatus "Ignored" statuses
   + List.length
       (filter (fun s => String.eqb s "RuntimeError" || String.eqb s "CompileError")
          statuses)
   + List.length (filter (fun s => negb (counted s)) statuses)
   = List.length statuses)%nat.
Proof.
  unfold withStatus, counted.
  induction statuses as [|s l IH]; [reflexivity|].
  cbn [filter].
  set (k := filter (String.eqb "Killed") l) in *.
  set (t := filter (String.eqb "Timeout") l) in *.
  set (v := filter (String.eqb "Survived") l) in *.
  set (n := filter (String.eqb "NoCoverage") l) in *.
  set (i := filter (String.eqb "Ignored") l) in *.
  set (e := filter _ l) in *.
  set (u := filter _ l) in *.
  rewrite (String.eqb_sym "Killed" s), (String.eqb_sym "Timeout" s),
    (String.eqb_sym "Survived" s), (String.eqb_sym "NoCoverage" s),
    (String.eqb_sym "Ignored" s).
  destruct (String.eqb_spec s "NoCoverage") as [->|_]; [cbn; lia|].
  destruct (String.eqb_spec s "Killed") as [->|_]; [cbn; lia|].
  destruct (String.eqb_spec s "Survived") as [->|_]; [cbn; lia|].
  destruct (String.eqb_spec s "RuntimeError") as [->|_]; [cbn; lia|].
  destruct (String.eqb_spec s "CompileError") as [->|_]; [cbn; lia|].
  destruct (String.eqb_spec s "Ignored") as [->|_]; [cbn; lia|].
  destruct (String.eqb_spec s "Timeout") as [->|_]; cbn; lia.
Qed.

(** X19: every mutant is counted at most once: detected, undetected, ignored
    and erroneous mutants, together with those whose status the report has
    no count for, make up the total; when every status is one the report
    knows, the four counts add up to the total. *)
Theorem aggregation_partition (statuses : list string) :
  (detected (getMutationTestResultAggregation statuses)
   + undetected (getMutationTestResultAggregation statuses)
   + ignored (getMutationTestResultAggregation statuses)
   + error (getMutationTestResultAggregation statuses)
   + List.length (filter (fun s => negb (counted s)) statuses)
   = total (getMutationTestResultAggregation statuses))%nat
  /\ (forallb counted statuses = true ->
      (detected (getMutationTestResultAggregation statuses)
       + undetected (getMutationTestResultAggregation statuses)
       + ignored (getMutationTestResultAggregation statuses)
       + error (getMutationTestResultAggregation statuses)
       = total (getMutationTestResultAggregation statuses))%nat).
Proof.
  pose proof (aggregation_split statuses) as H.
  cbn [getMutationTestResultAggregation detected undetected ignored error total].
  split; [exact H|].
  intros Hall.
  assert (Hnone : filter (fun s => negb (counted s)) statuses = []).
  { clear H. induction statuses as [|s l IH]; [reflexivity|].
    cbn [forallb] in Hall. apply andb_true_iff in Hall.
    destruct Hall as [Hs Hl]. cbn [filter]. rewrite Hs. cbn. now apply IH. }
  rewrite Hnone in H. cbn in H. lia.
Qed.

End MutationFacts.

(** * The further properties at concrete inputs *)

Lemma firstError_is_first_delivered_witness :
  firstError
    (closure
       (fst (run 1%nat false initialProcess
               ([Elapse 5; UncaughtException defaultWorld E1]
                ++ [UncaughtException defaultWorld E2; Elapse 2000]))))
  = Some E1.
Proof.
  apply (proj2 (firstError_is_first_delivered 1%nat false
                  [Elapse 5; UncaughtException defaultWorld E1]
                  [UncaughtException defaultWorld E2; Elapse 2000] E1)).
  reflexivity.
Defined.

Lemma eager_never_waits_witness :
  List.length
    (filter isInvoke
       (snd (run 1%nat false initialProcess
               [UncaughtException defaultWorld E1; Elapse 10;
                UncaughtException overrideWorld E2])))
  = 2%nat.
Proof.
  apply (eager_never_waits 1%nat false
           [UncaughtException defaultWorld E1; Elapse 10;
            UncaughtException overrideWorld E2]).
  repeat constructor.
Defined.

Lemma terminates_within_grace_witness :
  called
    (fst (run 1%nat false afterDeferredFirst
            [UncaughtException deferringAloneWorld E2; Elapse 1200;
             UncaughtException deferringWorld E3; Elapse 800]))
  = true.
Proof.
  apply (terminates_within_grace 1%nat false afterDeferredFirst
           deferringAloneWorld E2
           [Elapse 1200; UncaughtException deferringWorld E3; Elapse 800]
           reachable_afterDeferredFirst eq_refl).
  vm_compute. discriminate.
Defined.

Lemma integration_exits_by_default_witness :
  called
    (fst (step 1%nat false initialProcess
            (UncaughtException
               {| options := integrationOptions None;
                  clientOptions := noClientOptions;
                  listeners := [handlerListener; userListener];
                  getClient := Some 1%nat |}
               E1)))
  = true.
Proof.
  apply (integration_exits_by_default 1%nat false None
           {| options := integrationOptions None;
              clientOptions := noClientOptions;
              listeners := [handlerListener; userListener];
              getClient := Some 1%nat |}
           E1 I eq_refl).
Defined.

Lemma explicit_undefined_defers_witness :
  called
    (fst (step 1%nat false initialProcess
            (UncaughtException
               {| options :=
                    integrationOptions
                      (Some {| givenExit := present None;
                               givenOnFatalError := absent |});
                  clientOptions := noClientOptions;
                  listeners := [handlerListener; userListener];
                  getClient := Some 1%nat |}
               E1)))
  = false.
Proof.
  refine (proj2 (explicit_undefined_defers 1%nat false
                   {| givenExit := present None; givenOnFatalError := absent |}
                   {| options :=
                        integrationOptions
                          (Some {| givenExit := present None;
                                   givenOnFatalError := absent |});
                      clientOptions := noClientOptions;
                      listeners := [handlerListener; userListener];
                      getClient := Some 1%nat |}
                   E1 eq_refl eq_refl _)).
  repeat constructor.
Defined.

Lemma getTransaction_shape_witness :
  Transaction._getTransaction Transaction.appFrame
  = "app.routes/getUser"%string
  /\ Transaction._getTransaction Transaction.anonymousFrame
     = "<unknown>"%string.
Proof.
  split.
  - apply (proj2 (proj2 (getTransaction_shape Transaction.appFrame))).
    reflexivity.
  - apply (proj1 (getTransaction_shape Transaction.anonymousFrame)).
    split; reflexivity.
Defined.

Lemma processEvent_without_in_app_witness :
  Transaction.processEvent
    (Transaction.eventWithFrames [Transaction.libraryFrame])
  = Transaction.eventWithFrames [Transaction.libraryFrame].
Proof.
  apply processEvent_without_in_app.
  intros f [<-|[]]. discriminate.
Defined.

Lemma processEvent_last_in_app_witness :
  Transaction.processEvent
    (Transaction.eventWithFrames
       [Transaction.anonymousFrame; Transaction.appFrame;
        Transaction.libraryFrame])
  = Transaction.setTransaction
      (Transaction.eventWithFrames
         [Transaction.anonymousFrame; Transaction.appFrame;
          Transaction.libraryFrame])
      "app.routes/getUser".
Proof.
  apply (processEvent_last_in_app
           (Transaction.eventWithFrames
              [Transaction.anonymousFrame; Transaction.appFrame;
               Transaction.libraryFrame])
           [Transaction.anonymousFrame] [Transaction.libraryFrame]
           Transaction.appFrame eq_refl eq_refl).
  constructor; [discriminate | constructor].
Defined.

Lemma replace_first_occurrence_witness :
  Prepack.replace "build/" EmptyString "build/build/x.js" = "build/x.js"%string
  /\ Prepack.replace "build/" EmptyString "cjs/x.js" = "cjs/x.js"%string.
Proof.
  split.
  - apply (proj2 (replace_first_occurrence "build/" EmptyString
                    "build/build/x.js" EmptyString "build/x.js"));
      [reflexivity|].
    intros a' b' _. apply Nat.le_0_l.
  - apply (proj1 (replace_first_occurrence "build/" EmptyString
                    "cjs/x.js" EmptyString EmptyString)).
    intros a' b' H.
    apply (f_equal (Transaction.occurs "b"%char)) in H.
    rewrite !occurs_app in H. cbn in H. rewrite orb_true_r in H.
    discriminate H.
Defined.

Lemma entry_point_rebased_witness :
  Prepack.rewriteEntryPoint "build" (Some "build/cjs/index.js"%string)
  = Some "cjs/index.js"%string
  /\ Prepack.rewriteEntryPoint "build" (Some "README.md"%string)
     = Some "README.md"%string.
Proof.
  split.
  - exact (proj1 (entry_point_rebased "build" "cjs/index.js" EmptyString)).
  - apply (proj2 (proj2 (proj2
             (entry_point_rebased "build" EmptyString "README.md")))).
    intros a b H.
    apply (f_equal (Transaction.occurs "b"%char)) in H.
    rewrite !occurs_app in H. cbn in H. rewrite orb_true_r in H.
    discriminate H.
Defined.

Lemma rewriteExports_every_key_witness :
  Prepack.rewriteExports "build" Prepack.sampleExports
  = [("."%string,
      Prepack.ExportsObject
        [("import"%string, Prepack.ExportsString "esm/index.js");
         ("require"%string, Prepack.ExportsString "cjs/index.js");
         ("types"%string, Prepack.ExportsString "types/index.d.ts")]);
     ("./package.json"%string, Prepack.ExportsString "./package.json")].
Proof.
  apply (rewriteExports_every_key "build" Prepack.sampleExports).
  constructor; [|constructor; [intros []|constructor]].
  intros [H|[]]. discriminate H.
Defined.

Lemma rewriteSourceMap_once_witness :
  Prepack.rewriteSourceMap
    {| Prepack.sources := Some ["../src/index.ts"%string];
       Prepack._processed := true;
       Prepack.otherMapProperties := [] |}
  = None.
Proof.
  apply (proj2 (rewriteSourceMap_once
                  {| Prepack.sources := Some ["../../src/index.ts"%string];
                     Prepack._processed := false;
                     Prepack.otherMapProperties := [] |}
                  {| Prepack.sources := Some ["../src/index.ts"%string];
                     Prepack._processed := true;
                     Prepack.otherMapProperties := [] |}
                  ["../../src/index.ts"%string])).
  reflexivity.
Defined.

Lemma aggregation_partition_witness :
  (Mutation.detected
     (Mutation.getMutationTestResultAggregation
        ["Killed"; "Survived"; "Timeout"; "Ignored"; "NoCoverage"]%string)
   + Mutation.undetected
       (Mutation.getMutationTestResultAggregation
          ["Killed"; "Survived"; "Timeout"; "Ignored"; "NoCoverage"]%string)
   + Mutation.ignored
       (Mutation.getMutationTestResultAggregation
          ["Killed"; "Survived"; "Timeout"; "Ignored"; "NoCoverage"]%string)
   + Mutation.error
       (Mutation.getMutationTestResultAggregation
          ["Killed"; "Survived"; "Timeout"; "Ignored"; "NoCoverage"]%string)
   = Mutation.total
       (Mutation.getMutationTestResultAggregation
          ["Killed"; "Survived"; "Timeout"; "Ignored"; "NoCoverage"]%string))%nat.
Proof.
  apply (proj2 (aggregation_partition
                  ["Killed"; "Survived"; "Timeout"; "Ignored"; "NoCoverage"]%string)).
  reflexivity.
Defined.
